(** * PoemVisualizer: the scene player ([src/components/Player.tsx])

    A shallow embedding of the [Player] component: the manual PCM decode in
    [playVoice], the component's state and refs, its event handlers, the
    voice effect that re-runs when [currentIndex], [isPlaying] or [isMuted]
    change, and the callbacks the component hands to the browser
    ([source.onended], [setTimeout]). *)

From Stdlib Require Import ZArith QArith Lia Bool Ascii String.
From stdpp Require Import base list strings pretty.

Local Open Scope Z_scope.

(** ** The scene record ([PoemScene], the shared type declarations) *)

Inductive SfxCategory := WIND | RAIN | WATER | NATURE | PEACEFUL | NONE.

Record PoemScene := mkScene {
  id : string;
  originalText : string;
  visualPrompt : string;
  sfxDescription : string;
  sfxCategory : SfxCategory;
  audioBase64 : option string;
  imageBase64 : option string;
  sfxBase64 : option string;
  duration : option Z
}.

(** ** Browser primitives used by [playVoice]

    [atob], the [Int16Array] constructor and [createBuffer] belong to the
    platform.  They are modelled after their specifications: forgiving
    base64 decoding (WHATWG Infra), a typed-array view that needs a byte
    length that is a multiple of the element size, and a buffer factory that
    refuses a non-positive channel count, length or sample rate. *)

Inductive Exn :=
| InvalidCharacterError   (* atob on a string that is not base64 *)
| RangeError              (* Int16Array over an odd number of bytes *)
| NotSupportedError.      (* createBuffer with a zero argument *)

Definition result (A : Type) : Type := Exn + A.

Definition ok {A} (a : A) : result A := inr a.
Definition throw {A} (e : Exn) : result A := inl e.

Definition bind {A B} (m : result A) (k : A -> result B) : result B :=
  match m with
  | inl e => inl e
  | inr a => k a
  end.

Notation "'let!' x := m 'in' k" := (bind m (fun x => k))
  (at level 10, x name, m at level 100, k at level 200).

Module Base64.

Definition is_space (c : ascii) : bool :=
  let n := Z.of_N (N_of_ascii c) in
  (n =? 9) || (n =? 10) || (n =? 12) || (n =? 13) || (n =? 32).

(** The six-bit value of a character of the base64 alphabet. *)
Definition sextet (c : ascii) : option Z :=
  let n := Z.of_N (N_of_ascii c) in
  if (65 <=? n) && (n <=? 90) then Some (n - 65)
  else if (97 <=? n) && (n <=? 122) then Some (n - 71)
  else if (48 <=? n) && (n <=? 57) then Some (n + 4)
  else if n =? 43 then Some 62
  else if n =? 47 then Some 63
  else None.

Fixpoint sextets (cs : list ascii) : option (list Z) :=
  match cs with
  | [] => Some []
  | c :: cs' =>
      match sextet c, sextets cs' with
      | Some v, Some vs => Some (v :: vs)
      | _, _ => None
      end
  end.

Definition is_pad (c : ascii) : bool := Z.of_N (N_of_ascii c) =? 61.

(** Drop one or two trailing [=] of a string whose length is a multiple
    of four. *)
Definition strip_padding (cs : list ascii) : list ascii :=
  if (Z.of_nat (length cs) mod 4 =? 0) then
    match rev cs with
    | p1 :: p2 :: r =>
        if is_pad p1 then (if is_pad p2 then rev r else rev (p2 :: r)) else cs
    | _ => cs
    end
  else cs.

(** Four sextets give three bytes; a tail of two gives one byte, a tail of
    three gives two. *)
Fixpoint octets (vs : list Z) : list Z :=
  match vs with
  | a :: b :: c :: d :: rest =>
      let n := Z.lor (Z.shiftl a 18) (Z.lor (Z.shiftl b 12) (Z.lor (Z.shiftl c 6) d)) in
      Z.land (Z.shiftr n 16) 255 :: Z.land (Z.shiftr n 8) 255 :: Z.land n 255
        :: octets rest
  | [a; b; c] =>
      let n := Z.lor (Z.shiftl a 12) (Z.lor (Z.shiftl b 6) c) in
      [Z.land (Z.shiftr n 10) 255; Z.land (Z.shiftr n 2) 255]
  | [a; b] =>
      let n := Z.lor (Z.shiftl a 6) b in
      [Z.land (Z.shiftr n 4) 255]
  | _ => []
  end.

(** [atob]: the char codes of the binary string, or the exception. *)
Definition atob (s : string) : result (list Z) :=
  let cs := strip_padding (filter (fun c => negb (is_space c)) (list_ascii_of_string s)) in
  if (Z.of_nat (length cs) mod 4 =? 1) then throw InvalidCharacterError
  else match sextets cs with
       | Some vs => ok (octets vs)
       | None => throw InvalidCharacterError
       end.

End Base64.

(** The decoded buffer: mono float samples.  A sample is the quotient of a
    16-bit integer by 2^15, which both binary32 and binary64 represent
    exactly, so the rationals carry the values without rounding. *)
Record AudioBuffer := mkBuffer {
  numberOfChannels : Z;
  sampleRate : Z;
  channelData : list Q
}.

Definition createBuffer (numChannels : Z) (len : nat) (rate : Z) : result AudioBuffer :=
  if (numChannels <=? 0) || (Z.of_nat len =? 0) || (rate <=? 0)
  then throw NotSupportedError
  else ok (mkBuffer numChannels rate (replicate len 0%Q)).

(** One little-endian signed 16-bit element. *)
Definition int16_le (lo hi : Z) : Z :=
  let u := Z.lor lo (Z.shiftl hi 8) in
  if u <? 32768 then u else u - 65536.

Fixpoint int16_elements (bytes : list Z) : list Z :=
  match bytes with
  | lo :: hi :: rest => int16_le lo hi :: int16_elements rest
  | _ => []
  end.

(** [new Int16Array(buffer)] *)
Definition newInt16Array (buffer : list Z) : result (list Z) :=
  if Z.of_nat (length buffer) mod 2 =? 0
  then ok (int16_elements buffer)
  else throw RangeError.

(** ** The PCM decode of [playVoice] (the body of its [try], up to the
    filled buffer) *)

Definition safeLen (len : nat) : nat :=
  if Z.of_nat len mod 2 =? 0 then len else (len - 1)%nat.

Definition toFloat (s : Z) : Q := (inject_Z s / 32768)%Q.

(** The conversion loop: [channelData[i] = int16Data[i] / 32768.0] for
    [i] from 0 below [int16Data.length]. *)
Definition convertLoop (int16Data : list Z) (channelData : list Q) : list Q :=
  foldl (fun ch i => <[i := toFloat (default 0 (int16Data !! i))]> ch)
        channelData (seq 0 (length int16Data)).

Definition setChannelData (b : AudioBuffer) (d : list Q) : AudioBuffer :=
  mkBuffer (numberOfChannels b) (sampleRate b) d.

Definition decodePcm (bytes : list Z) : result AudioBuffer :=
  let len := length bytes in
  let sampleRate := 24000 in
  let numChannels := 1 in
  let! int16Data := newInt16Array (take (safeLen len) bytes) in
  let! audioBuffer := createBuffer numChannels (length int16Data) sampleRate in
  ok (setChannelData audioBuffer (convertLoop int16Data (channelData audioBuffer))).

Definition decodeVoice (base64Data : string) : result AudioBuffer :=
  let! bytes := Base64.atob base64Data in
  decodePcm bytes.

(** ** The component's state, refs and the objects it hands to the browser *)

Inductive AudioContextState := suspended | running | closed.

(** What the device reports: the state of a fresh [AudioContext], and the
    [state] attribute read back after [resume()] and after [suspend()].
    Browsers differ (autoplay policy, the attribute changing only once the
    promise settles), so the component is modelled over any such platform. *)
Record Platform := mkPlatform {
  initialContextState : AudioContextState;
  afterResume : AudioContextState -> AudioContextState;
  afterSuspend : AudioContextState -> AudioContextState
}.

Inductive PlaybackState :=
| Scheduled    (* started, [ended] not yet dispatched *)
| Stopped      (* [stop()] called, [ended] not yet dispatched *)
| Finished.    (* [ended] dispatched *)

(** An [AudioBufferSourceNode].  Its [onended] handler is the closure that
    [playVoice] creates; the closure is determined by the [currentIndex] it
    captured, so [Some c] stands for the handler and [None] for [null]. *)
Record AudioBufferSourceNode := mkSource {
  buffer : AudioBuffer;
  onended : option Z;
  playbackState : PlaybackState
}.

Record Player := mkPlayer {
  currentIndex : Z;
  isPlaying : bool;
  isMuted : bool;
  hasEnded : bool;
  audioContextRef : option AudioContextState;
  voiceSourceRef : option nat;            (* position in [sources] *)
  sources : list AudioBufferSourceNode;   (* every source node created so far *)
  timers : list Z;                         (* pending [setTimeout] callbacks, by delay *)
  console : list string
}.

Definition setCurrentIndex (v : Z) (p : Player) : Player :=
  mkPlayer v (isPlaying p) (isMuted p) (hasEnded p) (audioContextRef p)
           (voiceSourceRef p) (sources p) (timers p) (console p).
Definition setIsPlaying (v : bool) (p : Player) : Player :=
  mkPlayer (currentIndex p) v (isMuted p) (hasEnded p) (audioContextRef p)
           (voiceSourceRef p) (sources p) (timers p) (console p).
Definition setIsMuted (v : bool) (p : Player) : Player :=
  mkPlayer (currentIndex p) (isPlaying p) v (hasEnded p) (audioContextRef p)
           (voiceSourceRef p) (sources p) (timers p) (console p).
Definition setHasEnded (v : bool) (p : Player) : Player :=
  mkPlayer (currentIndex p) (isPlaying p) (isMuted p) v (audioContextRef p)
           (voiceSourceRef p) (sources p) (timers p) (console p).
Definition setContext (v : option AudioContextState) (p : Player) : Player :=
  mkPlayer (currentIndex p) (isPlaying p) (isMuted p) (hasEnded p) v
           (voiceSourceRef p) (sources p) (timers p) (console p).
Definition setVoiceSource (v : option nat) (p : Player) : Player :=
  mkPlayer (currentIndex p) (isPlaying p) (isMuted p) (hasEnded p) (audioContextRef p)
           v (sources p) (timers p) (console p).
Definition setSources (v : list AudioBufferSourceNode) (p : Player) : Player :=
  mkPlayer (currentIndex p) (isPlaying p) (isMuted p) (hasEnded p) (audioContextRef p)
           (voiceSourceRef p) v (timers p) (console p).
Definition setTimers (v : list Z) (p : Player) : Player :=
  mkPlayer (currentIndex p) (isPlaying p) (isMuted p) (hasEnded p) (audioContextRef p)
           (voiceSourceRef p) (sources p) v (console p).
Definition consoleError (msg : string) (p : Player) : Player :=
  mkPlayer (currentIndex p) (isPlaying p) (isMuted p) (hasEnded p) (audioContextRef p)
           (voiceSourceRef p) (sources p) (timers p) (console p ++ [msg]).

(** The React state proper: what a render captures and a snapshot shows. *)
Definition session (p : Player) : Z * bool * bool * bool :=
  (currentIndex p, isPlaying p, isMuted p, hasEnded p).

(** The dependency array of the voice effect. *)
Definition deps (p : Player) : Z * bool * bool :=
  (currentIndex p, isPlaying p, isMuted p).

(** JavaScript truthiness of an optional string field. *)
Definition truthy (o : option string) : option string :=
  match o with
  | Some s => if decide (s = EmptyString) then None else Some s
  | None => None
  end.

Definition initial : Player :=
  mkPlayer 0 false false false None None [] [] [].

(** What can happen to a mounted component.  The first six are the user's
    intents, each the call of its handler.  The rendered next and prev
    buttons are disabled at their boundary and the replay button exists only
    in the ended state, so the clicks the page can deliver are among the
    runs of these intents. *)
Inductive Event :=
| PlayPause
| Next
| Prev
| SelectScene (idx : nat)
| ToggleMute
| Replay
| SourceEnded (i : nat)                        (* the [ended] event of source [i] *)
| TimerFired                                   (* the oldest pending timeout runs *)
| ContextStateChange (st : AudioContextState). (* the device settles in a state *)

Section Component.

Variable platform : Platform.
Variable scenes : list PoemScene.
Variable autoPlay : bool.

Definition sceneCount : Z := Z.of_nat (length scenes).

(** [scenes[i]] *)
Definition sceneAt (i : Z) : option PoemScene :=
  if i <? 0 then None else scenes !! Z.to_nat i.

Definition resume (p : Player) : Player :=
  setContext (afterResume platform <$> audioContextRef p) p.

Definition suspend (p : Player) : Player :=
  setContext (afterSuspend platform <$> audioContextRef p) p.

Definition initAudio (p : Player) : Player :=
  let p :=
    match audioContextRef p with
    | None => setContext (Some (initialContextState platform)) p
    | Some _ => p
    end in
  match audioContextRef p with
  | Some suspended => resume p
  | _ => p
  end.

(** [source.onended = null] *)
Definition detach (i : nat) (p : Player) : Player :=
  setSources (alter (fun s => mkSource (buffer s) None (playbackState s)) i (sources p)) p.

(** [try { source.stop() } catch (e) {}] *)
Definition stopSource (i : nat) (p : Player) : Player :=
  setSources
    (alter (fun s => mkSource (buffer s) (onended s)
                       match playbackState s with
                       | Finished => Finished
                       | _ => Stopped
                       end) i (sources p)) p.

Definition INTER_SCENE_PAUSE : Z := 1000.

(** The [onended] closure created by a [playVoice] that captured
    [currentIndex = c]. *)
Definition onendedHandler (c : Z) (p : Player) : Player :=
  if c <? sceneCount - 1
  then setTimers (timers p ++ [INTER_SCENE_PAUSE]) p
  else setHasEnded true (setIsPlaying false p).

(** The timeout callback: [setCurrentIndex(prev => prev + 1)]. *)
Definition timeoutCallback (p : Player) : Player :=
  setCurrentIndex (currentIndex p + 1) p.

(** The clean-up of the previous source at the head of [playVoice]:
    [onended = null], then [stop()]. *)
Definition cleanUpPrevious (p : Player) : Player :=
  match voiceSourceRef p with
  | Some old => stopSource old (detach old p)
  | None => p
  end.

(** [playVoice], called from a closure whose render saw [currentIndex = c].
    The function is [async] but awaits nothing, so it runs to its end within
    the call.  The gain node it routes the source through carries no state of
    the component and is left out. *)
Definition playVoice (c : Z) (base64Data : string) (p : Player) : Player :=
  match audioContextRef p with
  | None => p
  | Some _ =>
      let p := cleanUpPrevious p in
      match decodeVoice base64Data with
      | inr audioBuffer =>
          let source := mkSource audioBuffer None Scheduled in
          let i := length (sources p) in
          let p := setVoiceSource (Some i) (setSources (sources p ++ [source]) p) in
          setSources (alter (fun s => mkSource (buffer s) (Some c) (playbackState s))
                            i (sources p)) p
      | inl e => consoleError "Error creating voice source" p
      end
  end.

(** The effect with dependencies [currentIndex, isPlaying, isMuted]. *)
Definition voiceEffect (p : Player) : Player :=
  if negb (isPlaying p) then p
  else
    let p := match audioContextRef p with None => initAudio p | Some _ => p end in
    if isMuted p then
      match audioContextRef p with
      | Some running => suspend p
      | _ => p
      end
    else
      let p := match audioContextRef p with Some suspended => resume p | _ => p end in
      match sceneAt (currentIndex p) with
      | Some scene =>
          match truthy (audioBase64 scene) with
          | Some data => playVoice (currentIndex p) data p
          | None => p
          end
      | None => p
      end.

(** The mount-only effect. *)
Definition autoPlayEffect (p : Player) : Player :=
  if autoPlay && (0 <? sceneCount) && negb (isPlaying p)
  then setIsPlaying true p
  else p.

Definition handlePlayPause (p0 : Player) : Player :=
  let p := initAudio p0 in
  if isPlaying p0 then suspend (setIsPlaying false p)
  else if hasEnded p0 then
    resume (setIsPlaying true (setCurrentIndex 0 (setHasEnded false p)))
  else
    let p := resume (setIsPlaying true p) in
    match voiceSourceRef p, audioContextRef p with
    | Some _, Some running => p
    | _, _ =>
        match sceneAt (currentIndex p0) with
        | Some scene =>
            match truthy (audioBase64 scene) with
            | Some data => playVoice (currentIndex p0) data p
            | None => p
            end
        | None => p   (* [scene.audioBase64] on undefined: the handler stops here *)
        end
    end.

Definition handleNext (p0 : Player) : Player :=
  let p := setHasEnded false p0 in
  if currentIndex p0 <? sceneCount - 1
  then setIsPlaying true (setCurrentIndex (currentIndex p + 1) p)
  else p.

Definition handlePrev (p0 : Player) : Player :=
  let p := setHasEnded false p0 in
  if 0 <? currentIndex p0
  then setIsPlaying true (setCurrentIndex (currentIndex p - 1) p)
  else p.

Definition handleReplay (p : Player) : Player :=
  resume (setIsPlaying true (setCurrentIndex 0 (setHasEnded false p))).

Definition toggleMute (p : Player) : Player :=
  setIsMuted (negb (isMuted p)) p.

(** The thumbnails: one button per scene, each with its own handler. *)
Definition thumbnails : list (Player -> Player) :=
  imap (fun idx _ p =>
          setHasEnded false (setIsPlaying true (setCurrentIndex (Z.of_nat idx) p)))
       scenes.

Definition selectScene (j : nat) (p : Player) : Player :=
  match thumbnails !! j with
  | Some onClick => onClick p
  | None => p
  end.

(** Dispatch of [ended] on source [i]: once per source, to the handler the
    source holds at that moment. *)
Definition sourceEnded (i : nat) (p : Player) : Player :=
  match sources p !! i with
  | Some s =>
      match playbackState s with
      | Finished => p
      | _ =>
          let p := setSources (<[i := mkSource (buffer s) (onended s) Finished]> (sources p)) p in
          match onended s with
          | Some c => onendedHandler c p
          | None => p
          end
      end
  | None => p
  end.

Definition timerFired (p : Player) : Player :=
  match timers p with
  | [] => p
  | _ :: rest => timeoutCallback (setTimers rest p)
  end.

Definition handler (e : Event) (p : Player) : Player :=
  match e with
  | PlayPause => handlePlayPause p
  | Next => handleNext p
  | Prev => handlePrev p
  | SelectScene j => selectScene j p
  | ToggleMute => toggleMute p
  | Replay => handleReplay p
  | SourceEnded i => sourceEnded i p
  | TimerFired => timerFired p
  | ContextStateChange st => setContext (const st <$> audioContextRef p) p
  end.

(** After the state updates of a callback are committed the component
    renders again, and the voice effect runs if a dependency changed. *)
Definition rerender (before after : Player) : Player :=
  if decide (deps before = deps after) then after else voiceEffect after.

Definition step (e : Event) (p : Player) : Player :=
  rerender p (handler e p).

Definition run (es : list Event) (p : Player) : Player :=
  foldl (fun q e => step e q) p es.

(** Mounting: both effects run once, then the render caused by autoplay. *)
Definition mount : Player :=
  let p := voiceEffect initial in
  rerender p (autoPlayEffect p).

End Component.

(** Two platforms for the concrete runs: one whose context starts running
    and shows [resume()] and [suspend()] at once, and one whose context
    starts suspended and whose [state] attribute has not changed yet when a
    call returns. *)
Definition syncPlatform : Platform :=
  mkPlatform running (fun _ => running) (fun _ => suspended).

Definition lazyPlatform : Platform :=
  mkPlatform suspended (fun st => st) (fun st => st).

(** Scenes as the generator leaves them: with narration, or without when
    the audio request failed. *)

Definition narrated (n : string) (a : string) : PoemScene :=
  mkScene n "" "" "" NONE (Some a) None None None.
Definition silent (n : string) : PoemScene :=
  mkScene n "" "" "" NONE None None None None.

(** ** Concrete scene lists used by the examples below

    [AAD/fw==] is the base64 of the four bytes 00 00 FF 7F (the samples 0
    and 32767); [AQID] is the base64 of 01 02 03. *)

Definition soloScenes : list PoemScene :=
  [narrated "scene-0" "AAD/fw=="].

Definition twoScenes : list PoemScene :=
  [narrated "scene-0" "AAD/fw=="; narrated "scene-1" "AQID"].

Definition threeScenes : list PoemScene :=
  [narrated "scene-0" "AAD/fw=="; narrated "scene-1" "AQID";
   narrated "scene-2" "AAD/fw=="].

Definition gapScenes : list PoemScene :=
  [narrated "scene-0" "AAD/fw=="; silent "scene-1"; narrated "scene-2" "AQID"].

Definition silentLastScenes : list PoemScene :=
  [narrated "scene-0" "AAD/fw=="; silent "scene-1"].

(** ** Vocabulary of the properties *)

(** The handler source [i] holds, if the source exists and holds one. *)
Definition onendedAt (i : nat) (p : Player) : option Z :=
  match sources p !! i with
  | Some s => onended s
  | None => None
  end.

(** The active-source reference points at a source that was created. *)
Definition refInRange (p : Player) : Prop :=
  forall i, voiceSourceRef p = Some i -> (i < length (sources p))%nat.

(** [q] is a later state of [p]: sources are only added, a source without
    handler never gets one back, and the source that was active in [p] is
    either still the active one or has lost its handler. *)
Definition follows (p q : Player) : Prop :=
  (length (sources p) <= length (sources q))%nat /\
  (forall i, (i < length (sources p))%nat ->
             onendedAt i p = None -> onendedAt i q = None) /\
  (forall old, voiceSourceRef p = Some old ->
               voiceSourceRef q = Some old \/ onendedAt old q = None).

(** At most one source holds a completion handler, and it is the active
    one. *)
Definition singleArmed (p : Player) : Prop :=
  forall i, onendedAt i p = None \/ voiceSourceRef p = Some i.

(** The intents the user interface emits. *)
Definition userIntent (e : Event) : bool :=
  match e with
  | PlayPause | Next | Prev | SelectScene _ | ToggleMute | Replay => true
  | SourceEnded _ | TimerFired | ContextStateChange _ => false
  end.

(** A scene whose narration is present and decodes. *)
Definition playable (sc : PoemScene) : bool :=
  match truthy (audioBase64 sc) with
  | Some data =>
      match decodeVoice data with
      | inr _ => true
      | inl _ => false
      end
  | None => false
  end.

(** The session is playing scene [k]: the flags say so and the active
    source is live with the handler of a closure that captured [k]. *)
Definition playingScene (k : Z) (p : Player) : Prop :=
  session p = (k, true, false, false) /\
  is_Some (audioContextRef p) /\
  timers p = [] /\
  exists i s, voiceSourceRef p = Some i /\ sources p !! i = Some s /\
              onended s = Some k /\ playbackState s = Scheduled.

(** Nothing is pending: no timer, and no live source holds a handler. *)
Definition quiescent (p : Player) : Prop :=
  timers p = [] /\
  forall i s, sources p !! i = Some s ->
              onended s = None \/ playbackState s = Finished.

(** Events that come from the browser rather than from the user. *)
Definition autonomous (e : Event) : bool := negb (userIntent e).

Section Playthrough.

Variable platform : Platform.
Variable scenes : list PoemScene.

(** One natural completion: the active narration plays to its end and the
    inter-scene pause, if one was set, elapses. *)
Definition completeActive (p : Player) : Player :=
  match voiceSourceRef p with
  | Some i => run platform scenes [SourceEnded i; TimerFired] p
  | None => p
  end.

End Playthrough.

(** ** The end screen: the whole poem, one line per punctuation mark

    JavaScript strings are sequences of UTF-16 code units.  The texts of the
    scenes are kept as [string]s in [PoemScene]; [units] gives the code units
    of such a text, and the string methods the component calls on them are
    written on code units. *)

Module JsString.

Definition LF : Z := 10.

(** White space and line terminators, the code units [trim] removes. *)
Definition isWhiteSpace (c : Z) : bool :=
  (c =? 9) || (c =? 10) || (c =? 11) || (c =? 12) || (c =? 13) || (c =? 32)
  || (c =? 160) || (c =? 5760) || ((8192 <=? c) && (c <=? 8202))
  || (c =? 8232) || (c =? 8233) || (c =? 8239) || (c =? 8287)
  || (c =? 12288) || (c =? 65279).

Fixpoint trimStart (s : list Z) : list Z :=
  match s with
  | [] => []
  | c :: r => if isWhiteSpace c then trimStart r else s
  end.

Definition trimEnd (s : list Z) : list Z := rev (trimStart (rev s)).

Definition trim (s : list Z) : list Z := trimEnd (trimStart s).

(** [s.split('\n')] *)
Fixpoint split (s : list Z) : list (list Z) :=
  match s with
  | [] => [[]]
  | c :: r =>
      if c =? LF then [] :: split r
      else match split r with
           | l :: ls => (c :: l) :: ls
           | [] => [[c]]
           end
  end.

(** [lines.join(sep)] *)
Fixpoint join (sep : list Z) (ls : list (list Z)) : list Z :=
  match ls with
  | [] => []
  | l :: rest =>
      match rest with
      | [] => l
      | _ :: _ => l ++ sep ++ join sep rest
      end
  end.

End JsString.

(** The character class of the end screen's regular expression: the
    full-width comma, the ideographic full stop, and the full-width
    exclamation mark, question mark and semicolon. *)
Definition isPunctuation (c : Z) : bool :=
  (c =? 65292) || (c =? 12290) || (c =? 65281) || (c =? 65311) || (c =? 65307).

(** [s.replace(/([...])/g, '$1\n')]: a line feed after every mark. *)
Fixpoint replacePunctuation (s : list Z) : list Z :=
  match s with
  | [] => []
  | c :: r =>
      if isPunctuation c then c :: JsString.LF :: replacePunctuation r
      else c :: replacePunctuation r
  end.

(** [line.trim() !== ''] *)
Definition notBlank (line : list Z) : bool :=
  match JsString.trim line with
  | [] => false
  | _ :: _ => true
  end.

(** A mark may only be the last code unit of a line. *)
Fixpoint punctuationOnlyLast (line : list Z) : bool :=
  match line with
  | [] => true
  | c :: r =>
      match r with
      | [] => true
      | _ :: _ => negb (isPunctuation c) && punctuationOnlyLast r
      end
  end.

(** The code units a reader sees: everything but white space. *)
Definition visibleUnits (s : list Z) : list Z :=
  filter (fun c => JsString.isWhiteSpace c = false) s.

Section EndScreen.

Variable units : string -> list Z.
Variable scenes : list PoemScene.

Definition fullPoem : list Z :=
  JsString.join [] (map (fun s => units (originalText s)) scenes).

Definition endScreenLines : list (list Z) :=
  filter (fun line => notBlank line = true)
         (JsString.split (replacePunctuation fullPoem)).

Definition endScreenText : list Z :=
  JsString.join [JsString.LF] endScreenLines.

End EndScreen.

(** ** What the component renders

    The controls the page offers and what a click on each does: the
    placeholder replaces the whole player while there is no scene, the prev
    and next buttons carry [disabled] at their boundary, the replay button is
    part of the end screen only, and there is one thumbnail per scene. *)

(** The active source is the one created last. *)
Definition newestActive (p : Player) : Prop :=
  voiceSourceRef p =
  match length (sources p) with
  | O => None
  | S n => Some n
  end.

Inductive Control :=
| MuteButton
| PrevButton
| PlayPauseButton
| NextButton
| ReplayButton
| Thumbnail (idx : nat).

Section Rendering.

Variable platform : Platform.
Variable scenes : list PoemScene.

(** [!scenes[currentIndex] && scenes.length === 0] *)
Definition showsLoading (p : Player) : bool :=
  match sceneAt scenes (currentIndex p) with
  | Some _ => false
  | None => sceneCount scenes =? 0
  end.

Definition prevDisabled (p : Player) : bool := currentIndex p =? 0.

Definition nextDisabled (p : Player) : bool :=
  currentIndex p =? sceneCount scenes - 1.

(** The stacked scene images: layer [idx] is opaque when
    [idx === currentIndex]. *)
Definition visibleLayers (p : Player) : list bool :=
  imap (fun idx _ => Z.of_nat idx =? currentIndex p) scenes.

Definition click (c : Control) (p : Player) : Player :=
  if showsLoading p then p
  else
    match c with
    | MuteButton => step platform scenes ToggleMute p
    | PrevButton => if prevDisabled p then p else step platform scenes Prev p
    | PlayPauseButton => step platform scenes PlayPause p
    | NextButton => if nextDisabled p then p else step platform scenes Next p
    | ReplayButton => if hasEnded p then step platform scenes Replay p else p
    | Thumbnail j => step platform scenes (SelectScene j) p
    end.

(** Every handler that is armed captured the index of an existing scene. *)
Definition capturedInRange (p : Player) : Prop :=
  forall i c, onendedAt i p = Some c -> 0 <= c < sceneCount scenes.

(** What every step keeps: the active source is the newest one, it is the
    only one that can hold a handler, and handlers captured existing
    scenes. *)
Definition wellFormed (p : Player) : Prop :=
  newestActive p /\ singleArmed p /\ capturedInRange p.

End Rendering.

(** ** The generation service (the calls to the model and what is read
    from their answers)

    An error is kept as its message.  What the remote model answers is not
    the repository's code: an answer is given to each function as the parts
    of the first candidate ([response.candidates?.[0]?.content?.parts]). *)

Module Service.

Record InlineData := mkInline {
  mimeType : option string;
  data : option string
}.

Record Part := mkPart {
  partText : option string;
  inlineData : option InlineData
}.

(** [part.inlineData && part.inlineData.data], with the part's data. *)
Definition inlinePayload (part : Part) : option (InlineData * string) :=
  match inlineData part with
  | Some d =>
      match truthy (data d) with
      | Some s => Some (d, s)
      | None => None
      end
  | None => None
  end.

Fixpoint firstPayload (parts : list Part) : option (InlineData * string) :=
  match parts with
  | [] => None
  | part :: rest =>
      match inlinePayload part with
      | Some r => Some r
      | None => firstPayload rest
      end
  end.

(** A template literal prints a missing value as [undefined]. *)
Definition interpolate (o : option string) : string :=
  match o with
  | Some s => s
  | None => "undefined"
  end.

Definition generateSceneImage (parts : option (list Part)) : string + string :=
  match parts with
  | None => inl "No image generated"%string
  | Some ps =>
      match firstPayload ps with
      | Some (d, s) =>
          inr ("data:" +:+ interpolate (mimeType d) +:+ ";base64," +:+ s)
      | None => inl "Image data not found in response"%string
      end
  end.

Definition generateSceneAudio (parts : option (list Part)) : string + string :=
  match parts with
  | None => inl "No audio generated"%string
  | Some ps =>
      match firstPayload ps with
      | Some (_, s) => inr s
      | None => inl "Audio data not found in response"%string
      end
  end.

Definition generateSoundEffect (description : string) : string := "".

End Service.

(** ** The application shell: [handleGenerate] *)

Module Analysis.

Record Scene := mkScene {
  text : string;
  visualDescription : string;
  sfxDescription : string;
  sfxCategory : SfxCategory
}.

Record PoemAnalysis := mkAnalysis {
  title : string;
  author : string;
  dynasty : string;
  eraDescription : string;
  scenes : list Scene
}.

End Analysis.

Module App.

Inductive AppState := IDLE | ANALYZING | GENERATING_MEDIA | READY | PLAYING | ERROR.

Record GenerationProgress := mkProgress {
  step : string;
  completed : Z;
  total : Z
}.

Record State := mkState {
  inputText : string;
  voiceSample : option string;
  appState : AppState;
  analysis : option Analysis.PoemAnalysis;
  scenes : list PoemScene;
  progress : GenerationProgress;
  errorMsg : option string;
  console : list string
}.

(** What the outside world answers during one generation: the analysis
    ([analyzePoem] rejected with a message, or resolved with a value of its
    declared type [PoemAnalysis]), and for the scene at each index the outcome
    of the image request and of the audio request: the call rejected, or the
    parts of its answer.  The service casts the parsed JSON to [PoemAnalysis]
    without a check; a resolved value that does not have that shape is not
    among these answers, and the properties of [handleGenerate] below are
    stated for a rejected analysis or for a resolved one of that type. *)
Record Answers := mkAnswers {
  analyzePoem : string -> string + Analysis.PoemAnalysis;
  imageAnswer : nat -> string -> string + option (list Service.Part);
  audioAnswer : nat -> string -> option string -> string + option (list Service.Part)
}.

Definition setAppState (v : AppState) (st : State) : State :=
  mkState (inputText st) (voiceSample st) v (analysis st) (scenes st)
          (progress st) (errorMsg st) (console st).
Definition setErrorMsg (v : option string) (st : State) : State :=
  mkState (inputText st) (voiceSample st) (appState st) (analysis st) (scenes st)
          (progress st) v (console st).
Definition setScenes (v : list PoemScene) (st : State) : State :=
  mkState (inputText st) (voiceSample st) (appState st) (analysis st) v
          (progress st) (errorMsg st) (console st).
Definition setAnalysis (v : option Analysis.PoemAnalysis) (st : State) : State :=
  mkState (inputText st) (voiceSample st) (appState st) v (scenes st)
          (progress st) (errorMsg st) (console st).
Definition setProgress (v : GenerationProgress) (st : State) : State :=
  mkState (inputText st) (voiceSample st) (appState st) (analysis st) (scenes st)
          v (errorMsg st) (console st).
Definition consoleError (msg : string) (st : State) : State :=
  mkState (inputText st) (voiceSample st) (appState st) (analysis st) (scenes st)
          (progress st) (errorMsg st) (console st ++ [msg]).

(** [scene.imageBase64 = v] and [scene.audioBase64 = v] *)
Definition withImage (v : string) (sc : PoemScene) : PoemScene :=
  mkScene (id sc) (originalText sc) (visualPrompt sc) (sfxDescription sc)
          (sfxCategory sc) (audioBase64 sc) (Some v) (sfxBase64 sc) (duration sc).
Definition withAudio (v : string) (sc : PoemScene) : PoemScene :=
  mkScene (id sc) (originalText sc) (visualPrompt sc) (sfxDescription sc)
          (sfxCategory sc) (Some v) (imageBase64 sc) (sfxBase64 sc) (duration sc).

(** The initial scene of an analysed scene: no media yet. *)
Definition initialScene (i : nat) (s : Analysis.Scene) : PoemScene :=
  mkScene ("scene-" +:+ pretty i) (Analysis.text s) (Analysis.visualDescription s)
          (Analysis.sfxDescription s) (Analysis.sfxCategory s)
          None None None None.

Section Generate.

Variable units : string -> list Z.
Variable answers : Answers.

(** The await of a service call: the request may be rejected, and the
    function may throw on the answer. *)
Definition awaitImage (i : nat) (prompt : string) : string + string :=
  match imageAnswer answers i prompt with
  | inl e => inl e
  | inr parts => Service.generateSceneImage parts
  end.

Definition awaitAudio (i : nat) (text : string) (sample : option string)
  : string + string :=
  match audioAnswer answers i text sample with
  | inl e => inl e
  | inr parts => Service.generateSceneAudio parts
  end.

(** One turn of the media loop, for scene [i].  It carries the local
    [updatedScenes] and [completedSteps] beside the state.  The scene objects
    are shared between [updatedScenes] and the arrays given to [setScenes];
    each assignment to a scene is followed at once by [setScenes] of a copy
    of [updatedScenes], so the state's list and the local one hold the same
    scenes after every statement that can be observed. *)
Definition mediaStep (n : nat) (dynasty : string) (totalSteps : Z)
    (acc : list PoemScene * Z * State) (i : nat) : list PoemScene * Z * State :=
  let '(updatedScenes, completedSteps, st) := acc in
  let st := setProgress
              (mkProgress ("Painting scene " +:+ pretty (i + 1)%nat +:+ "/" +:+ pretty n
                             +:+ " (Era: " +:+ dynasty +:+ ")...")
                          completedSteps totalSteps) st in
  let '(updatedScenes, st) :=
    match updatedScenes !! i with
    | Some sc =>
        match awaitImage i (visualPrompt sc) with
        | inr imageBase64 =>
            let updatedScenes := <[i := withImage imageBase64 sc]> updatedScenes in
            (updatedScenes, setScenes updatedScenes st)
        | inl e =>
            (updatedScenes,
             consoleError ("Failed to generate image for scene " +:+ pretty i) st)
        end
    | None => (updatedScenes, st)
    end in
  let completedSteps := completedSteps + 1 in
  let st := setProgress
              (mkProgress ("Reciting scene " +:+ pretty (i + 1)%nat +:+ "/" +:+ pretty n
                             +:+ "...")
                          completedSteps totalSteps) st in
  let '(updatedScenes, st) :=
    match updatedScenes !! i with
    | Some sc =>
        match awaitAudio i (originalText sc) (truthy (voiceSample st)) with
        | inr audioBase64 =>
            let updatedScenes := <[i := withAudio audioBase64 sc]> updatedScenes in
            (updatedScenes, setScenes updatedScenes st)
        | inl e =>
            (updatedScenes,
             consoleError ("Failed to generate audio for scene " +:+ pretty i) st)
        end
    | None => (updatedScenes, st)
    end in
  (updatedScenes, completedSteps + 1, st).

Definition DEFAULT_ERROR : string := "Something went wrong during generation.".

Definition handleGenerate (st0 : State) : State :=
  match JsString.trim (units (inputText st0)) with
  | [] => st0
  | _ :: _ =>
      let st := setAnalysis None (setScenes [] (setErrorMsg None
                  (setAppState ANALYZING st0))) in
      let st := setProgress
                  (mkProgress "Analyzing poem structure and mood..." 0 100) st in
      match analyzePoem answers (inputText st0) with
      | inr analysisResult =>
          let st := setAnalysis (Some analysisResult) st in
          let initialScenes := imap initialScene (Analysis.scenes analysisResult) in
          let st := setScenes initialScenes st in
          let st := setAppState GENERATING_MEDIA st in
          let totalSteps := Z.of_nat (length initialScenes) * 2 in
          let '(_, _, st) :=
            foldl (mediaStep (length initialScenes)
                             (Analysis.dynasty analysisResult) totalSteps)
                  (initialScenes, 0, st)
                  (seq 0 (length initialScenes)) in
          setAppState READY st
      | inl message =>
          let st := consoleError message st in
          let st := setAppState ERROR st in
          setErrorMsg (Some (default DEFAULT_ERROR (truthy (Some message)))) st
      end
  end.

(** The scene of index [i] once both of its requests have been answered,
    and the list in which the first [k] scenes have been through the loop. *)
Definition generatedScene (sample : option string) (i : nat) (s : Analysis.Scene)
  : PoemScene :=
  let sc := initialScene i s in
  let sc := match awaitImage i (visualPrompt sc) with
            | inr v => withImage v sc
            | inl _ => sc
            end in
  match awaitAudio i (originalText sc) sample with
  | inr v => withAudio v sc
  | inl _ => sc
  end.

Definition partlyGenerated (sample : option string) (k : nat)
    (l : list Analysis.Scene) : list PoemScene :=
  imap (fun i s => if decide (i < k)%nat then generatedScene sample i s
                   else initialScene i s) l.

End Generate.

End App.

(** ** A concrete generation used by the examples below

    Two analysed scenes; the image request of the second and the audio
    request of the first are rejected.  The texts are ASCII, for which the
    code units are the character codes. *)

Definition asciiUnits (s : string) : list Z :=
  (fun c => Z.of_nat (nat_of_ascii c)) <$> list_ascii_of_string s.

Definition demoAnalysis : Analysis.PoemAnalysis :=
  Analysis.mkAnalysis "Quiet Night Thought" "Li Bai" "Tang" "Tang robes"
    [Analysis.mkScene "Moonlight before my bed," "ink wash, moonlit room" "calm" PEACEFUL;
     Analysis.mkScene "frost upon the ground." "ink wash, frosted courtyard" "cold wind" WIND].

Definition demoAnswers : App.Answers :=
  App.mkAnswers
    (fun _ => inr demoAnalysis)
    (fun i _ =>
       match i with
       | O => inr (Some [Service.mkPart (Some "a caption") None;
                         Service.mkPart None
                           (Some (Service.mkInline (Some "image/png") (Some "iVBORw0KGgo=")))])
       | S _ => inl "quota exceeded"%string
       end)
    (fun i _ _ =>
       match i with
       | O => inl "network error"%string
       | S _ => inr (Some [Service.mkPart None
                             (Some (Service.mkInline (Some "audio/L16") (Some "")));
                           Service.mkPart None
                             (Some (Service.mkInline (Some "audio/L16") (Some "AAD/fw==")))])
       end).

Definition refusingAnswers : App.Answers :=
  App.mkAnswers (fun _ => inl ""%string) (App.imageAnswer demoAnswers)
                (App.audioAnswer demoAnswers).

Definition demoState : App.State :=
  App.mkState " Quiet Night Thought " None App.IDLE None [] (App.mkProgress "" 0 0)
              None [].

(** * Properties *)

(** ** The PCM decoder *)

Lemma safeLen_double (n : nat) : safeLen n = (2 * (n / 2))%nat.
Proof.
  unfold safeLen.
  pose proof (Nat.div_mod_eq n 2) as Hn.
  pose proof (Nat.mod_upper_bound n 2 ltac:(lia)) as Hb.
  change 2 with (Z.of_nat 2). rewrite <- Nat2Z.inj_mod.
  destruct (Z.eqb_spec (Z.of_nat (n mod 2)) 0) as [He | He]; lia.
Qed.

(** Induction two elements at a time, the way the typed array reads bytes. *)
Lemma list_pair_ind {A} (P : list A -> Prop) :
  P [] -> (forall x, P [x]) -> (forall x y l, P l -> P (x :: y :: l)) ->
  forall l, P l.
Proof.
  intros H0 H1 H2 l.
  assert (P l /\ forall x, P (x :: l)) as [H _]; [| exact H].
  induction l as [| y l [IHl IHx]]; split; auto.
Qed.

Lemma div2_SS (n : nat) : (S (S n) / 2 = S (n / 2))%nat.
Proof.
  replace (S (S n)) with (n + 1 * 2)%nat by lia.
  rewrite Nat.div_add by lia. lia.
Qed.

Lemma int16_elements_length (bytes : list Z) :
  length (int16_elements bytes) = (length bytes / 2)%nat.
Proof.
  induction bytes as [| x | lo hi rest IH] using list_pair_ind; try reflexivity.
  cbn [int16_elements length]. rewrite div2_SS, IH. reflexivity.
Qed.

(** The elements only read whole pairs: truncating to [safeLen] changes
    nothing, and neither does one trailing byte. *)
Lemma int16_elements_take_safeLen (bytes : list Z) :
  int16_elements (take (safeLen (length bytes)) bytes) = int16_elements bytes.
Proof.
  induction bytes as [| x | lo hi rest IH] using list_pair_ind; try reflexivity.
  rewrite safeLen_double. cbn [length]. rewrite div2_SS.
  replace (2 * S (length rest / 2))%nat with (S (S (2 * (length rest / 2))))%nat by lia.
  cbn [take int16_elements]. f_equal.
  rewrite <- safeLen_double. exact IH.
Qed.

Lemma int16_elements_trailing (bytes : list Z) (b : Z) :
  Nat.Even (length bytes) -> int16_elements (bytes ++ [b]) = int16_elements bytes.
Proof.
  induction bytes as [| x | lo hi rest IH] using list_pair_ind; intros Hev.
  - reflexivity.
  - destruct Hev as [k Hk]. simpl in Hk. lia.
  - change ((lo :: hi :: rest) ++ [b]) with (lo :: hi :: (rest ++ [b])).
    cbn [int16_elements]. f_equal. apply IH.
    destruct Hev as [k Hk]. simpl in Hk. exists (k - 1)%nat. lia.
Qed.

Lemma int16_elements_lookup (bytes : list Z) (i : nat) (lo hi : Z) :
  bytes !! (2 * i)%nat = Some lo ->
  bytes !! (2 * i + 1)%nat = Some hi ->
  int16_elements bytes !! i = Some (int16_le lo hi).
Proof.
  revert bytes.
  induction i as [| i IH]; intros [| b0 [| b1 rest]] Hlo Hhi; simpl in *; try discriminate.
  - congruence.
  - replace (i + S (i + 0))%nat with (S (2 * i))%nat in Hlo by lia.
    replace (i + S (i + 0) + 1)%nat with (S (2 * i + 1))%nat in Hhi by lia.
    simpl in Hlo, Hhi. apply IH; assumption.
Qed.

Lemma newInt16Array_safe (bytes : list Z) :
  newInt16Array (take (safeLen (length bytes)) bytes) = ok (int16_elements bytes).
Proof.
  unfold newInt16Array.
  assert (Z.of_nat (length (take (safeLen (length bytes)) bytes)) mod 2 = 0) as ->.
  { rewrite length_take, safeLen_double.
    pose proof (Nat.div_mod_eq (length bytes) 2) as Hn.
    rewrite Nat.min_l by lia.
    rewrite Nat2Z.inj_mul, Z.mul_comm. apply Z.mod_mul. lia. }
  simpl. rewrite int16_elements_take_safeLen. reflexivity.
Qed.

(** The loop fills every slot of a buffer of the right length. *)
Lemma convertLoop_keeps_length (d : list Z) (ixs : list nat) (ch : list Q) :
  length (foldl (fun ch i => <[i := toFloat (default 0 (d !! i))]> ch) ch ixs) = length ch.
Proof.
  revert ch. induction ixs as [| i ixs IH]; intros ch; simpl; [reflexivity |].
  rewrite IH. apply length_insert.
Qed.

Lemma convertLoop_lookup (d : list Z) (n : nat) (ch : list Q) (i : nat) :
  (n <= length ch)%nat ->
  foldl (fun ch i => <[i := toFloat (default 0 (d !! i))]> ch) ch (seq 0 n) !! i
  = if decide (i < n)%nat then Some (toFloat (default 0 (d !! i))) else ch !! i.
Proof.
  induction n as [| n IH]; intros Hn.
  - simpl. destruct (decide (i < 0)%nat); [lia | reflexivity].
  - rewrite seq_S, foldl_app. simpl.
    destruct (decide (i = n)) as [-> | Hne].
    + rewrite list_lookup_insert_eq by (rewrite convertLoop_keeps_length; lia).
      destruct (decide (n < S n)%nat); [reflexivity | lia].
    + rewrite list_lookup_insert_ne by congruence.
      rewrite IH by lia.
      destruct (decide (i < n)%nat), (decide (i < S n)%nat); try reflexivity; lia.
Qed.

Lemma convertLoop_map (d : list Z) (ch : list Q) :
  length ch = length d -> convertLoop d ch = toFloat <$> d.
Proof.
  intros Hlen. apply list_eq. intros i.
  unfold convertLoop. rewrite convertLoop_lookup by lia.
  rewrite list_lookup_fmap.
  destruct (decide (i < length d)%nat) as [Hi | Hi].
  - destruct (lookup_lt_is_Some_2 d i Hi) as [x Hx]. rewrite Hx. reflexivity.
  - rewrite (lookup_ge_None_2 d i) by lia.
    rewrite (lookup_ge_None_2 ch i) by lia. reflexivity.
Qed.

(** [decodePcm] in closed form: it fails exactly when no whole sample is
    left, with the error of [createBuffer]. *)
Lemma decodePcm_spec (bytes : list Z) :
  decodePcm bytes =
  if (length bytes <? 2)%nat then throw NotSupportedError
  else ok (mkBuffer 1 24000 (toFloat <$> int16_elements bytes)).
Proof.
  unfold decodePcm. rewrite newInt16Array_safe. cbn [bind ok].
  unfold createBuffer. rewrite int16_elements_length.
  destruct (Nat.ltb_spec (length bytes) 2) as [Hlt | Hge].
  - rewrite Nat.div_small by lia. reflexivity.
  - assert (1 <= length bytes / 2)%nat by (apply Nat.div_le_lower_bound; lia).
    replace (Z.of_nat (length bytes / 2) =? 0) with false by (symmetry; apply Z.eqb_neq; lia).
    cbn [orb Z.leb Z.compare bind ok setChannelData numberOfChannels sampleRate channelData].
    rewrite convertLoop_map; [reflexivity |].
    rewrite length_replicate, int16_elements_length. reflexivity.
Qed.

Lemma int16_le_signed (lo hi : Z) :
  0 <= lo < 256 -> 0 <= hi < 256 ->
  -32768 <= int16_le lo hi < 32768 /\
  (int16_le lo hi) mod 65536 = lo + 256 * hi.
Proof.
  intros Hlo Hhi. unfold int16_le.
  assert (Z.land lo (Z.shiftl hi 8) = 0) as Hdisj.
  { apply Z.bits_inj'. intros n Hn. rewrite Z.land_spec, Z.bits_0.
    destruct (Z.ltb_spec n 8) as [Hlt | Hge].
    - rewrite Z.shiftl_spec_low by lia. apply andb_false_r.
    - destruct (Z.eq_dec lo 0) as [-> | Hnz]; [rewrite Z.bits_0; reflexivity |].
      rewrite (Z.bits_above_log2 lo n); [reflexivity | lia |].
      assert (Z.log2 lo < 8) by (apply Z.log2_lt_pow2; lia). lia. }
  rewrite <- Z.lxor_lor, <- Z.add_nocarry_lxor by exact Hdisj.
  rewrite Z.shiftl_mul_pow2 by lia. change (2 ^ 8) with 256.
  destruct (Z.ltb_spec (lo + hi * 256) 32768); split; try lia.
  - rewrite Z.mod_small; lia.
  - replace (lo + hi * 256 - 65536) with (lo + hi * 256 + (-1) * 65536) by lia.
    rewrite Z.mod_add by lia. rewrite Z.mod_small; lia.
Qed.

(** C6: the decoder reads the payload as little-endian 16-bit elements, two
    bytes each, so [len] bytes give [len / 2] elements (rounded down) and the
    last byte of an odd payload is never read; the buffer it returns holds
    each element [s] as [s / 32768], one sample per element; and decoding
    succeeds as soon as there are two bytes. *)
Theorem decode_pcm_samples (bytes : list Z) :
  length (int16_elements bytes) = (length bytes / 2)%nat /\
  (forall i lo hi,
     bytes !! (2 * i)%nat = Some lo -> bytes !! (2 * i + 1)%nat = Some hi ->
     int16_elements bytes !! i = Some (int16_le lo hi)) /\
  (forall b, Nat.Even (length bytes) ->
     int16_elements (bytes ++ [b]) = int16_elements bytes /\
     decodePcm (bytes ++ [b]) = decodePcm bytes) /\
  (forall audioBuffer, decodePcm bytes = ok audioBuffer ->
     channelData audioBuffer
       = (fun s => (inject_Z s / 32768)%Q) <$> int16_elements bytes /\
     length (channelData audioBuffer) = (length bytes / 2)%nat) /\
  ((2 <= length bytes)%nat -> exists audioBuffer, decodePcm bytes = ok audioBuffer).
Proof.
  split; [apply int16_elements_length |].
  split; [intros i lo hi; apply int16_elements_lookup |].
  split; [| split].
  - intros b Hev. pose proof (int16_elements_trailing bytes b Hev) as Htr.
    split; [exact Htr |].
    rewrite !decodePcm_spec, Htr, length_app. simpl.
    destruct Hev as [k Hk].
    destruct (Nat.ltb_spec (length bytes + 1) 2), (Nat.ltb_spec (length bytes) 2);
      try reflexivity; lia.
  - intros audioBuffer Hdec. rewrite decodePcm_spec in Hdec.
    destruct (length bytes <? 2)%nat; [discriminate |].
    injection Hdec as <-. simpl.
    split; [reflexivity |].
    rewrite length_fmap. apply int16_elements_length.
  - intros Hlen. rewrite decodePcm_spec.
    destruct (Nat.ltb_spec (length bytes) 2); [lia |].
    eexists. reflexivity.
Qed.

(** ** Frame facts of the component's operations *)

Ltac break_match :=
  repeat match goal with
         | |- context [match ?x with _ => _ end] => destruct x eqn:?; simpl
         end.

Section ComponentFacts.

Variable pf : Platform.
Variable scenes : list PoemScene.

(** [playVoice] and the voice effect never write React state and never
    set a timer: they only touch the device, the sources and the console. *)
Lemma playVoice_session c data p : session (playVoice c data p) = session p.
Proof. unfold playVoice, cleanUpPrevious. break_match; reflexivity. Qed.

Lemma playVoice_timers c data p : timers (playVoice c data p) = timers p.
Proof. unfold playVoice, cleanUpPrevious. break_match; reflexivity. Qed.

Lemma voiceEffect_session p : session (voiceEffect pf scenes p) = session p.
Proof.
  unfold voiceEffect, initAudio.
  break_match; rewrite ?playVoice_session; reflexivity.
Qed.

Lemma voiceEffect_timers p : timers (voiceEffect pf scenes p) = timers p.
Proof.
  unfold voiceEffect, initAudio.
  break_match; rewrite ?playVoice_timers; reflexivity.
Qed.

Lemma rerender_session p q : session (rerender pf scenes p q) = session q.
Proof. unfold rerender. case_decide; [reflexivity | apply voiceEffect_session]. Qed.

Lemma rerender_timers p q : timers (rerender pf scenes p q) = timers q.
Proof. unfold rerender. case_decide; [reflexivity | apply voiceEffect_timers]. Qed.

Lemma step_session e p : session (step pf scenes e p) = session (handler pf scenes e p).
Proof. apply rerender_session. Qed.

Lemma step_timers e p : timers (step pf scenes e p) = timers (handler pf scenes e p).
Proof. apply rerender_timers. Qed.

Lemma rerender_same p q : deps p = deps q -> rerender pf scenes p q = q.
Proof. intros H. unfold rerender. case_decide; [reflexivity | contradiction]. Qed.

Lemma selectScene_inside (j : nat) p :
  (j < length scenes)%nat ->
  selectScene scenes j p =
  setHasEnded false (setIsPlaying true (setCurrentIndex (Z.of_nat j) p)).
Proof.
  intros Hj. unfold selectScene, thumbnails.
  rewrite list_lookup_imap.
  destruct (lookup_lt_is_Some_2 scenes j Hj) as [sc ->]. reflexivity.
Qed.

Lemma selectScene_outside (j : nat) p :
  (length scenes <= j)%nat -> selectScene scenes j p = p.
Proof.
  intros Hj. unfold selectScene, thumbnails.
  rewrite list_lookup_imap, (lookup_ge_None_2 scenes j Hj). reflexivity.
Qed.

(** The session after a user intent, handler by handler. *)
Lemma handlePlayPause_session p :
  session (handlePlayPause pf scenes p) =
  if isPlaying p then (currentIndex p, false, isMuted p, hasEnded p)
  else if hasEnded p then (0, true, isMuted p, false)
  else (currentIndex p, true, isMuted p, hasEnded p).
Proof.
  unfold handlePlayPause, initAudio.
  destruct (isPlaying p) eqn:Hp, (hasEnded p) eqn:He;
    break_match; rewrite ?playVoice_session; unfold session; simpl;
    rewrite ?Hp, ?He; reflexivity.
Qed.

(** ** Navigation at the boundaries and the index range *)

Lemma handleNext_at_last p :
  sceneCount scenes - 1 <= currentIndex p ->
  step pf scenes Next p = setHasEnded false p.
Proof.
  intros Hi. unfold step, handler, handleNext.
  replace (currentIndex p <? sceneCount scenes - 1) with false
    by (symmetry; apply Z.ltb_ge; lia).
  apply rerender_same. reflexivity.
Qed.

Lemma handlePrev_at_first p :
  currentIndex p <= 0 ->
  step pf scenes Prev p = setHasEnded false p.
Proof.
  intros Hi. unfold step, handler, handlePrev.
  replace (0 <? currentIndex p) with false
    by (symmetry; apply Z.ltb_ge; lia).
  apply rerender_same. reflexivity.
Qed.

(** C10: [next()] with the index at the last scene, and [prev()] with the
    index at 0, change nothing but the ended flag, which they clear: the
    index, the playing and muted flags, the device, the sources and the
    timers stay as they were, so in the ended presentation the overlay goes
    away while no scene changes and no playback starts. *)
Theorem boundary_navigation_clears_ended p :
  (currentIndex p = sceneCount scenes - 1 ->
   step pf scenes Next p = setHasEnded false p) /\
  (currentIndex p = 0 ->
   step pf scenes Prev p = setHasEnded false p).
Proof.
  split; intros Hi.
  - apply handleNext_at_last. lia.
  - apply handlePrev_at_first. lia.
Qed.

Lemma handler_user_index e p :
  userIntent e = true ->
  0 <= currentIndex p < sceneCount scenes ->
  0 <= currentIndex (handler pf scenes e p) < sceneCount scenes.
Proof.
  intros He Hp.
  destruct e; try discriminate; unfold handler.
  - pose proof (handlePlayPause_session p) as Hs.
    apply (f_equal (fun s => fst (fst (fst s)))) in Hs. simpl in Hs. rewrite Hs. destruct (isPlaying p), (hasEnded p); simpl; lia.
  - unfold handleNext. destruct (Z.ltb_spec (currentIndex p) (sceneCount scenes - 1)); simpl; lia.
  - unfold handlePrev. destruct (Z.ltb_spec 0 (currentIndex p)); simpl; lia.
  - destruct (decide (idx < length scenes)%nat) as [Hj | Hj].
    + rewrite selectScene_inside by exact Hj. simpl. unfold sceneCount. lia.
    + rewrite selectScene_outside by lia. exact Hp.
  - exact Hp.
  - simpl. lia.
Qed.

(** The handlers of the user's operations keep the index inside
    [0, sceneCount): [next] at the last scene and [prev] at scene 0 leave the
    index and the playing flag as they are, and a [selectScene] outside the
    range, for which no thumbnail exists, leaves the whole state unchanged.
    (The timer callback of the inter-scene pause has no such guard.) *)
Theorem user_operations_keep_index_in_range p :
  0 <= currentIndex p < sceneCount scenes ->
  (forall e, userIntent e = true ->
     0 <= currentIndex (step pf scenes e p) < sceneCount scenes) /\
  (currentIndex p = sceneCount scenes - 1 ->
     currentIndex (step pf scenes Next p) = currentIndex p /\
     isPlaying (step pf scenes Next p) = isPlaying p) /\
  (currentIndex p = 0 ->
     currentIndex (step pf scenes Prev p) = currentIndex p /\
     isPlaying (step pf scenes Prev p) = isPlaying p) /\
  (forall j, (length scenes <= j)%nat ->
     step pf scenes (SelectScene j) p = p).
Proof.
  intros Hp. repeat split.
  - pose proof (step_session e p) as Hs.
    apply (f_equal (fun s => fst (fst (fst s)))) in Hs. simpl in Hs. rewrite Hs.
    apply handler_user_index; assumption.
  - pose proof (step_session e p) as Hs.
    apply (f_equal (fun s => fst (fst (fst s)))) in Hs. simpl in Hs. rewrite Hs.
    apply handler_user_index; assumption.
  - rewrite handleNext_at_last by lia. reflexivity.
  - rewrite handleNext_at_last by lia. reflexivity.
  - rewrite handlePrev_at_first by lia. reflexivity.
  - rewrite handlePrev_at_first by lia. reflexivity.
  - intros j Hj. unfold step, handler.
    rewrite selectScene_outside by exact Hj.
    apply rerender_same. reflexivity.
Qed.

(** ** Mute *)

Lemma voiceEffect_not_playing p :
  isPlaying p = false -> voiceEffect pf scenes p = p.
Proof. intros H. unfold voiceEffect. rewrite H. reflexivity. Qed.

(** While muted the effect stops before it reaches [playVoice]. *)
Lemma voiceEffect_muted p :
  isMuted p = true ->
  sources (voiceEffect pf scenes p) = sources p /\
  voiceSourceRef (voiceEffect pf scenes p) = voiceSourceRef p.
Proof.
  destruct p as [i pl m e ctx vs srcs ts c]. simpl. intros ->.
  unfold voiceEffect, initAudio, resume, suspend, setContext. simpl.
  destruct pl; simpl; [| split; reflexivity].
  destruct ctx as [[| |] |]; simpl; try (split; reflexivity).
  destruct (initialContextState pf); simpl; try (split; reflexivity).
  destruct (afterResume pf suspended); split; reflexivity.
Qed.

(** Toggling mute never changes the index, the playing flag or the ended
    flag and sets no timer; it flips the muted flag; and when it mutes, or
    when nothing is playing, it leaves every source and the active source
    reference untouched, so only the device can change. *)
Theorem toggle_mute_frame p :
  let q := step pf scenes ToggleMute p in
  currentIndex q = currentIndex p /\
  isPlaying q = isPlaying p /\
  hasEnded q = hasEnded p /\
  isMuted q = negb (isMuted p) /\
  timers q = timers p /\
  (isMuted p = false \/ isPlaying p = false ->
   sources q = sources p /\ voiceSourceRef q = voiceSourceRef p).
Proof.
  intros q. subst q.
  pose proof (step_session ToggleMute p) as Hs.
  pose proof (step_timers ToggleMute p) as Ht.
  unfold session in Hs. simpl in Hs, Ht. injection Hs as H1 H2 H3 H4.
  split; [exact H1 |]. split; [exact H2 |]. split; [exact H4 |].
  split; [exact H3 |]. split; [exact Ht |].
  intros Hor.
  unfold step, handler, rerender. case_decide; [split; reflexivity |].
  destruct Hor as [Hm | Hpl].
  - apply (voiceEffect_muted (toggleMute p)).
    unfold toggleMute. simpl. rewrite Hm. reflexivity.
  - rewrite voiceEffect_not_playing by exact Hpl. split; reflexivity.
Qed.

End ComponentFacts.

(** ** Sources and their completion handlers *)

Lemma alter_last {A} (f : A -> A) (l : list A) (x : A) :
  alter f (length l) (l ++ [x]) = l ++ [f x].
Proof. induction l as [| y l IH]; simpl; [reflexivity | f_equal; exact IH]. Qed.

Lemma cleanUpPrevious_frame p :
  session (cleanUpPrevious p) = session p /\
  timers (cleanUpPrevious p) = timers p /\
  audioContextRef (cleanUpPrevious p) = audioContextRef p /\
  voiceSourceRef (cleanUpPrevious p) = voiceSourceRef p /\
  console (cleanUpPrevious p) = console p /\
  length (sources (cleanUpPrevious p)) = length (sources p).
Proof.
  unfold cleanUpPrevious. destruct (voiceSourceRef p) eqn:Href; simpl.
  - rewrite !length_alter. repeat split; try reflexivity. exact Href.
  - repeat split; try reflexivity. exact Href.
Qed.

Lemma cleanUpPrevious_onended i p :
  onendedAt i (cleanUpPrevious p) =
  if decide (voiceSourceRef p = Some i) then None else onendedAt i p.
Proof.
  unfold cleanUpPrevious, onendedAt.
  destruct (voiceSourceRef p) as [old |] eqn:Href; simpl.
  - destruct (decide (Some old = Some i)) as [Heq | Hne].
    + injection Heq as ->. rewrite !list_lookup_alter_eq.
      destruct (sources p !! i); reflexivity.
    + rewrite !list_lookup_alter_ne by congruence. reflexivity.
  - destruct (decide (None = Some i)); [discriminate | reflexivity].
Qed.

(** [playVoice] in closed form. *)
Lemma playVoice_spec c data p :
  playVoice c data p =
  match audioContextRef p with
  | None => p
  | Some _ =>
      let p1 := cleanUpPrevious p in
      match decodeVoice data with
      | inr audioBuffer =>
          setVoiceSource (Some (length (sources p)))
            (setSources (sources p1 ++ [mkSource audioBuffer (Some c) Scheduled]) p1)
      | inl _ => consoleError "Error creating voice source" p1
      end
  end.
Proof.
  unfold playVoice. destruct (audioContextRef p); [| reflexivity].
  destruct (decodeVoice data); [reflexivity |].
  destruct (cleanUpPrevious_frame p) as (_ & _ & _ & _ & _ & Hlen).
  cbn [sources voiceSourceRef setVoiceSource setSources].
  rewrite alter_last. cbn [buffer playbackState]. rewrite Hlen.
  reflexivity.
Qed.

Lemma follows_refl p : follows p p.
Proof. repeat split; auto. Qed.

Lemma follows_trans p q r :
  refInRange p -> follows p q -> follows q r -> follows p r.
Proof.
  intros Hp (Hl1 & Hd1 & Hr1) (Hl2 & Hd2 & Hr2). repeat split.
  - lia.
  - intros i Hi Hnone. apply Hd2; [lia |]. apply Hd1; assumption.
  - intros old Hold. destruct (Hr1 old Hold) as [Hq | Hq].
    + apply Hr2. exact Hq.
    + right. apply Hd2; [| exact Hq]. specialize (Hp old Hold). lia.
Qed.

(** States that agree on the sources and on the active reference. *)
Lemma follows_same_audio p q :
  sources q = sources p -> voiceSourceRef q = voiceSourceRef p -> follows p q.
Proof.
  intros Hs Hr. unfold follows, onendedAt. rewrite Hs, Hr. repeat split; auto.
Qed.

Lemma refInRange_same_audio p q :
  sources q = sources p -> voiceSourceRef q = voiceSourceRef p ->
  refInRange p -> refInRange q.
Proof. intros Hs Hr Hp i Hi. rewrite Hs. apply Hp. rewrite <- Hr. exact Hi. Qed.

Lemma playVoice_follows c data p :
  refInRange p ->
  refInRange (playVoice c data p) /\ follows p (playVoice c data p).
Proof.
  intros Hp. rewrite playVoice_spec.
  destruct (audioContextRef p) as [st |]; [| split; [exact Hp | apply follows_refl]].
  destruct (cleanUpPrevious_frame p) as (_ & _ & _ & Href & _ & Hlen).
  cbn zeta.
  destruct (decodeVoice data) as [e | audioBuffer].
  - split.
    + intros i Hi. simpl in *. rewrite Hlen. apply Hp. rewrite <- Href. exact Hi.
    + repeat split; simpl.
      * lia.
      * intros i Hi Hnone.
        change (onendedAt i (cleanUpPrevious p) = None).
        rewrite cleanUpPrevious_onended. case_decide; [reflexivity | exact Hnone].
      * intros old Hold. right.
        change (onendedAt old (cleanUpPrevious p) = None).
        rewrite cleanUpPrevious_onended. case_decide; [reflexivity | contradiction].
  - split.
    + intros i Hi. simpl in *. injection Hi as <-. rewrite length_app, Hlen. simpl. lia.
    + repeat split; simpl.
      * rewrite length_app, Hlen. lia.
      * intros i Hi Hnone. unfold onendedAt. simpl.
        rewrite lookup_app_l by lia.
        change (onendedAt i (cleanUpPrevious p) = None).
        rewrite cleanUpPrevious_onended. case_decide; [reflexivity | exact Hnone].
      * intros old Hold. right. unfold onendedAt. simpl.
        rewrite lookup_app_l by (specialize (Hp old Hold); lia).
        change (onendedAt old (cleanUpPrevious p) = None).
        rewrite cleanUpPrevious_onended. case_decide; [reflexivity | contradiction].
Qed.

Lemma follows_via p p' q :
  sources p' = sources p -> voiceSourceRef p' = voiceSourceRef p ->
  refInRange p ->
  (refInRange p' -> refInRange q /\ follows p' q) ->
  refInRange q /\ follows p q.
Proof.
  intros Hs Hr Hp Hq.
  assert (refInRange p') as Hp' by (eapply refInRange_same_audio; eassumption).
  destruct (Hq Hp') as [Hwf Hf]. split; [exact Hwf |].
  eapply follows_trans; [exact Hp | apply follows_same_audio; eassumption | exact Hf].
Qed.

(** Closes a goal [refInRange q /\ follows p q] where [q] is [p] with other
    flags, device or timers, possibly under one [playVoice]. *)
Ltac audio_leaf Hp :=
  first
    [ split;
      [ eapply refInRange_same_audio; [reflexivity | reflexivity | exact Hp]
      | apply follows_same_audio; reflexivity ]
    | refine (follows_via _ _ _ _ _ Hp (playVoice_follows _ _ _)); reflexivity ].

Section Handlers.

Variable pf : Platform.
Variable scenes : list PoemScene.

Lemma voiceEffect_follows p :
  refInRange p ->
  refInRange (voiceEffect pf scenes p) /\ follows p (voiceEffect pf scenes p).
Proof.
  intros Hp. unfold voiceEffect, initAudio, resume, suspend.
  break_match; audio_leaf Hp.
Qed.

Lemma handlePlayPause_follows p :
  refInRange p ->
  refInRange (handlePlayPause pf scenes p) /\ follows p (handlePlayPause pf scenes p).
Proof.
  intros Hp. unfold handlePlayPause, initAudio, resume, suspend.
  break_match; audio_leaf Hp.
Qed.

Lemma sourceEnded_audio i p :
  length (sources (sourceEnded scenes i p)) = length (sources p) /\
  voiceSourceRef (sourceEnded scenes i p) = voiceSourceRef p /\
  forall j, onendedAt j (sourceEnded scenes i p) = onendedAt j p.
Proof.
  unfold sourceEnded, onendedHandler.
  destruct (sources p !! i) as [s |] eqn:Hs; [| repeat split; reflexivity].
  assert (forall j, onendedAt j
            (setSources (<[i := mkSource (buffer s) (onended s) Finished]> (sources p)) p)
          = onendedAt j p) as Hsame.
  { intros j. unfold onendedAt. simpl.
    destruct (decide (i = j)) as [<- | Hne].
    - rewrite list_lookup_insert_eq by (eapply lookup_lt_Some; exact Hs).
      rewrite Hs. reflexivity.
    - rewrite list_lookup_insert_ne by exact Hne. reflexivity. }
  destruct (playbackState s); try (repeat split; reflexivity).
  all: destruct (onended s) as [c |]; [destruct (c <? sceneCount scenes - 1) |].
  all: simpl; rewrite ?length_insert; repeat split; try reflexivity; exact Hsame.
Qed.

Lemma sourceEnded_follows i p :
  refInRange p ->
  refInRange (sourceEnded scenes i p) /\ follows p (sourceEnded scenes i p).
Proof.
  intros Hp. destruct (sourceEnded_audio i p) as (Hl & Hr & Ho). split.
  - intros j Hj. rewrite Hl. apply Hp. rewrite <- Hr. exact Hj.
  - repeat split.
    + lia.
    + intros j _ Hnone. rewrite Ho. exact Hnone.
    + intros old Hold. left. rewrite Hr. exact Hold.
Qed.

Lemma handler_follows e p :
  refInRange p ->
  refInRange (handler pf scenes e p) /\ follows p (handler pf scenes e p).
Proof.
  intros Hp. destruct e; unfold handler.
  - apply handlePlayPause_follows; exact Hp.
  - unfold handleNext. break_match; audio_leaf Hp.
  - unfold handlePrev. break_match; audio_leaf Hp.
  - destruct (decide (idx < length scenes)%nat).
    + rewrite selectScene_inside by assumption. audio_leaf Hp.
    + rewrite selectScene_outside by lia. audio_leaf Hp.
  - audio_leaf Hp.
  - unfold handleReplay, resume. audio_leaf Hp.
  - apply sourceEnded_follows; exact Hp.
  - unfold timerFired, timeoutCallback. break_match; audio_leaf Hp.
  - audio_leaf Hp.
Qed.

Lemma step_follows e p :
  refInRange p ->
  refInRange (step pf scenes e p) /\ follows p (step pf scenes e p).
Proof.
  intros Hp. unfold step, rerender.
  destruct (handler_follows e p Hp) as [Hwf Hf].
  case_decide; [split; assumption |].
  destruct (voiceEffect_follows _ Hwf) as [Hwf' Hf'].
  split; [exact Hwf' |].
  eapply follows_trans; eassumption.
Qed.

Lemma run_follows es p :
  refInRange p ->
  refInRange (run pf scenes es p) /\ follows p (run pf scenes es p).
Proof.
  revert p. induction es as [| e es IH]; intros p Hp; simpl.
  - split; [exact Hp | apply follows_refl].
  - destruct (step_follows e p Hp) as [Hwf Hf].
    destruct (IH _ Hwf) as [Hwf' Hf'].
    split; [exact Hwf' |].
    eapply follows_trans; eassumption.
Qed.

Lemma mount_unfold autoPlay :
  mount pf scenes autoPlay =
  if autoPlay && (0 <? sceneCount scenes)
  then voiceEffect pf scenes (setIsPlaying true initial)
  else initial.
Proof.
  unfold mount. rewrite (voiceEffect_not_playing pf scenes initial) by reflexivity.
  unfold autoPlayEffect, rerender.
  destruct (autoPlay && (0 <? sceneCount scenes)); simpl;
    try case_decide; try reflexivity; discriminate.
Qed.

Lemma mount_refInRange autoPlay : refInRange (mount pf scenes autoPlay).
Proof.
  assert (refInRange initial) as H0 by (intros i Hi; discriminate).
  rewrite mount_unfold.
  destruct (autoPlay && (0 <? sceneCount scenes)); [| exact H0].
  apply voiceEffect_follows.
  eapply refInRange_same_audio; [reflexivity | reflexivity | exact H0].
Qed.

(** A completion event on a source without handler changes neither the
    session, nor the timers, nor the active reference. *)
Lemma stale_ended_ignored old p :
  onendedAt old p = None ->
  session (step pf scenes (SourceEnded old) p) = session p /\
  timers (step pf scenes (SourceEnded old) p) = timers p /\
  voiceSourceRef (step pf scenes (SourceEnded old) p) = voiceSourceRef p.
Proof.
  intros Hnone.
  assert (session (sourceEnded scenes old p) = session p /\
          timers (sourceEnded scenes old p) = timers p) as [Hs Ht].
  { unfold sourceEnded. unfold onendedAt in Hnone.
    destruct (sources p !! old) as [s |]; [| split; reflexivity].
    rewrite Hnone. destruct (playbackState s); split; reflexivity. }
  destruct (sourceEnded_audio old p) as (_ & Hr & _).
  unfold step, handler.
  rewrite rerender_same; [repeat split; assumption |].
  unfold deps. unfold session in Hs. congruence.
Qed.

(** C1: in every run from mount, when an event (in particular a user's
    play of another scene) replaces the active source, the completion event
    of the replaced source is discarded however late it arrives: it changes
    neither index nor flags, sets no timer and leaves the newer source
    active, so the replacement moves the index once and the stale completion
    adds no further advance. *)
Theorem stale_completion_is_discarded autoPlay evs1 u old evs2 :
  let p := run pf scenes evs1 (mount pf scenes autoPlay) in
  voiceSourceRef p = Some old ->
  voiceSourceRef (step pf scenes u p) <> Some old ->
  let q := run pf scenes evs2 (step pf scenes u p) in
  session (step pf scenes (SourceEnded old) q) = session q /\
  timers (step pf scenes (SourceEnded old) q) = timers q /\
  voiceSourceRef (step pf scenes (SourceEnded old) q) = voiceSourceRef q.
Proof.
  intros p Hold Hnew q.
  assert (refInRange p) as Hp by (apply run_follows, mount_refInRange).
  destruct (step_follows u p Hp) as [Hwf (Hlen & _ & Href)].
  destruct (Href old Hold) as [Hsame | Hdet]; [contradiction |].
  destruct (run_follows evs2 _ Hwf) as [_ (_ & Hkeep & _)].
  apply stale_ended_ignored.
  apply Hkeep; [| exact Hdet].
  specialize (Hp old Hold). lia.
Qed.

End Handlers.

(** ** Natural play-through *)

Section NaturalRun.

Variable pf : Platform.
Variable scenes : list PoemScene.

(** With the session playing and unmuted on a playable scene, the voice
    effect arms a fresh source whose handler captured the current index. *)
Lemma voiceEffect_arms p sc :
  isPlaying p = true -> isMuted p = false ->
  sceneAt scenes (currentIndex p) = Some sc ->
  playable sc = true ->
  let q := voiceEffect pf scenes p in
  session q = session p /\
  is_Some (audioContextRef q) /\
  timers q = timers p /\
  voiceSourceRef q = Some (length (sources p)) /\
  exists buf, sources q !! length (sources p)
              = Some (mkSource buf (Some (currentIndex p)) Scheduled).
Proof.
  intros Hpl Hmu Hsc Hok q. subst q.
  unfold playable in Hok.
  destruct (truthy (audioBase64 sc)) as [data |] eqn:Hdata; [| discriminate].
  destruct (decodeVoice data) as [e | buf] eqn:Hdec; [discriminate |].
  destruct p as [i pl m en ctx vs srcs ts co]. simpl in *. subst pl m.
  assert (forall st, let p' := mkPlayer i true false en (Some st) vs srcs ts co in
            session (playVoice i data p') = (i, true, false, en) /\
            is_Some (audioContextRef (playVoice i data p')) /\
            timers (playVoice i data p') = ts /\
            voiceSourceRef (playVoice i data p') = Some (length srcs) /\
            exists buf, sources (playVoice i data p') !! length srcs
                        = Some (mkSource buf (Some i) Scheduled)) as Hplay.
  { intros st p'. rewrite playVoice_session, playVoice_timers.
    rewrite playVoice_spec. subst p'. cbn [audioContextRef]. cbn zeta. rewrite Hdec.
    destruct (cleanUpPrevious_frame (mkPlayer i true false en (Some st) vs srcs ts co))
      as (_ & _ & Hctx & _ & _ & Hlen).
    cbn [session timers voiceSourceRef setVoiceSource setSources sources audioContextRef
         currentIndex isPlaying isMuted hasEnded] in *.
    rewrite Hctx. repeat split; try reflexivity; [eexists; reflexivity |].
    exists buf. rewrite <- Hlen. apply list_lookup_middle. reflexivity. }
  unfold voiceEffect, initAudio, resume. simpl.
  destruct ctx as [st |]; simpl.
  - destruct st; simpl; rewrite Hsc, Hdata; apply Hplay.
  - destruct (initialContextState pf); simpl; rewrite ?Hsc, ?Hdata; simpl.
    + destruct (afterResume pf suspended); simpl; rewrite ?Hsc, ?Hdata; apply Hplay.
    + apply Hplay.
    + apply Hplay.
Qed.

Lemma completeActive_advances k p sc :
  playingScene k p ->
  k < sceneCount scenes - 1 ->
  sceneAt scenes (k + 1) = Some sc ->
  playable sc = true ->
  playingScene (k + 1) (completeActive pf scenes p).
Proof.
  intros (Hses & Hctx & Htm & i & s & Href & Hsrc & Hon & Hst) Hk Hsc Hok.
  destruct p as [ix pl m en ctx vs srcs ts co].
  unfold session in Hses. simpl in *. injection Hses as -> -> -> ->. subst vs ts.
  unfold completeActive, run. cbn [voiceSourceRef foldl].
  (* the narration ends: the handler sets the inter-scene timer *)
  assert (step pf scenes (SourceEnded i)
            (mkPlayer k true false false ctx (Some i) srcs [] co)
          = mkPlayer k true false false ctx (Some i)
              (<[i := mkSource (buffer s) (onended s) Finished]> srcs)
              [INTER_SCENE_PAUSE] co) as ->.
  { unfold step, handler, sourceEnded. cbn [sources]. rewrite Hsrc, Hst, Hon.
    unfold onendedHandler.
    replace (k <? sceneCount scenes - 1) with true by (symmetry; apply Z.ltb_lt; lia).
    apply rerender_same. reflexivity. }
  (* the pause elapses: the index moves and the effect plays the next scene *)
  unfold step, handler, timerFired, timeoutCallback, rerender.
  cbn [timers setTimers setCurrentIndex currentIndex isPlaying isMuted hasEnded
       audioContextRef voiceSourceRef sources console].
  case_decide as Hdeps; [unfold deps in Hdeps; simpl in Hdeps; injection Hdeps; lia |].
  match goal with |- playingScene _ (voiceEffect _ _ ?p2) =>
    destruct (voiceEffect_arms p2 sc eq_refl eq_refl Hsc Hok)
      as (Hs' & Hc' & Ht' & Hr' & buf & Hb')
  end.
  unfold playingScene. rewrite Hs', Ht'. repeat split; try assumption.
  eexists _, _. repeat split; [exact Hr' | exact Hb' | reflexivity | reflexivity].
Qed.

Lemma completeActive_ends k p :
  playingScene k p ->
  sceneCount scenes - 1 <= k ->
  session (completeActive pf scenes p) = (k, false, false, true).
Proof.
  intros (Hses & Hctx & Htm & i & s & Href & Hsrc & Hon & Hst) Hk.
  destruct p as [ix pl m en ctx vs srcs ts co].
  unfold session in Hses. simpl in Hses, Hctx, Htm, Href, Hsrc.
  injection Hses as -> -> -> ->. subst vs ts.
  unfold completeActive, run. cbn [voiceSourceRef foldl].
  (* the last narration ends: the handler stops the session *)
  assert (step pf scenes (SourceEnded i)
            (mkPlayer k true false false ctx (Some i) srcs [] co)
          = mkPlayer k false false true ctx (Some i)
              (<[i := mkSource (buffer s) (onended s) Finished]> srcs) [] co) as ->.
  { unfold step, handler, sourceEnded. cbn [sources]. rewrite Hsrc, Hst, Hon.
    unfold onendedHandler.
    replace (k <? sceneCount scenes - 1) with false by (symmetry; apply Z.ltb_ge; lia).
    unfold rerender. case_decide; [reflexivity |].
    apply voiceEffect_not_playing. reflexivity. }
  (* no timer is pending *)
  rewrite step_session. reflexivity.
Qed.

Lemma mount_plays sc :
  scenes !! 0%nat = Some sc -> playable sc = true ->
  playingScene 0 (mount pf scenes true).
Proof.
  intros Hsc Hok. rewrite mount_unfold.
  assert ((0 <? sceneCount scenes) = true) as ->.
  { apply Z.ltb_lt. unfold sceneCount. apply lookup_lt_Some in Hsc. lia. }
  simpl.
  destruct (voiceEffect_arms (setIsPlaying true initial) sc eq_refl eq_refl Hsc Hok)
    as (Hs' & Hc' & Ht' & Hr' & buf & Hb').
  unfold playingScene. rewrite Hs', Ht'. repeat split; try assumption.
  eexists _, _. repeat split; [exact Hr' | exact Hb' | reflexivity | reflexivity].
Qed.

Lemma sceneAt_nat (k : nat) : sceneAt scenes (Z.of_nat k) = scenes !! k.
Proof.
  unfold sceneAt. replace (Z.of_nat k <? 0) with false by (symmetry; apply Z.ltb_ge; lia).
  rewrite Nat2Z.id. reflexivity.
Qed.

Lemma natural_run_plays p0 (k : nat) :
  forallb playable scenes = true ->
  playingScene 0 p0 ->
  (k < length scenes)%nat ->
  playingScene (Z.of_nat k) (Nat.iter k (completeActive pf scenes) p0).
Proof.
  intros Hall Hp0. rewrite forallb_forall in Hall.
  induction k as [| k IH]; intros Hk.
  - exact Hp0.
  - destruct (lookup_lt_is_Some_2 scenes (S k) Hk) as [sc Hsc].
    cbn [Nat.iter]. replace (Z.of_nat (S k)) with (Z.of_nat k + 1) by lia.
    apply (completeActive_advances _ _ sc).
    + apply IH. lia.
    + unfold sceneCount. lia.
    + replace (Z.of_nat k + 1) with (Z.of_nat (S k)) by lia. rewrite sceneAt_nat. exact Hsc.
    + apply Hall. eapply list_elem_of_In, list_elem_of_lookup_2, Hsc.
Qed.

(** C4: when every scene has narration that decodes, from any state that
    is playing scene 0 -- such as the session mounted with autoplay -- the
    session is playing scene [k] after [k < N] natural completions (the index
    has grown by one with each completion), and the [N]-th completion, and no
    earlier one, ends the session. *)
Theorem natural_playthrough_reaches_ended p0 (k : nat) :
  forallb playable scenes = true ->
  (1 <= length scenes)%nat ->
  playingScene 0 p0 ->
  (k <= length scenes)%nat ->
  playingScene 0 (mount pf scenes true) /\
  session (Nat.iter k (completeActive pf scenes) p0)
  = if (k <? length scenes)%nat
    then (Z.of_nat k, true, false, false)
    else (sceneCount scenes - 1, false, false, true).
Proof.
  intros Hall Hne Hp0 Hk. split.
  - destruct (lookup_lt_is_Some_2 scenes 0 Hne) as [sc Hsc].
    apply (mount_plays sc Hsc).
    rewrite forallb_forall in Hall.
    apply Hall. eapply list_elem_of_In, list_elem_of_lookup_2, Hsc.
  - destruct (Nat.ltb_spec k (length scenes)) as [Hlt | Hge].
    + apply (natural_run_plays p0 k Hall Hp0 Hlt).
    + assert (k = S (length scenes - 1)) as -> by lia.
      cbn [Nat.iter].
      replace (sceneCount scenes - 1) with (Z.of_nat (length scenes - 1))
        by (unfold sceneCount; lia).
      apply completeActive_ends.
      * apply natural_run_plays; [exact Hall | exact Hp0 | lia].
      * unfold sceneCount. lia.
Qed.

(** ** The inter-scene timer and the replay of the current scene *)

(** A pending inter-scene timer survives [next]: both move the index. *)
Lemma pending_timer_survives_next p d rest :
  timers p = d :: rest ->
  currentIndex p < sceneCount scenes - 1 ->
  timers (step pf scenes Next p) = d :: rest /\
  currentIndex (run pf scenes [Next; TimerFired] p) = currentIndex p + 2.
Proof.
  intros Ht Hi.
  assert (session (step pf scenes Next p)
          = (currentIndex p + 1, true, isMuted p, false)) as Hs.
  { rewrite step_session. unfold handler, handleNext.
    replace (currentIndex p <? sceneCount scenes - 1) with true
      by (symmetry; apply Z.ltb_lt; lia).
    reflexivity. }
  assert (timers (step pf scenes Next p) = d :: rest) as Ht'.
  { rewrite step_timers. unfold handler, handleNext.
    destruct (currentIndex p <? sceneCount scenes - 1); exact Ht. }
  split; [exact Ht' |].
  unfold run. cbn [foldl].
  pose proof (step_session pf scenes TimerFired (step pf scenes Next p)) as Hs2.
  unfold handler, timerFired in Hs2. rewrite Ht' in Hs2.
  unfold session in Hs, Hs2. simpl in Hs2.
  injection Hs as Hidx _ _ _. injection Hs2 as Hidx2 _ _ _.
  rewrite Hidx2, Hidx. lia.
Qed.

(** Pressing play on a paused, unmuted session whose scene has narration
    always creates a new source, whatever the device reports. *)
Lemma resume_always_replays p old sc :
  refInRange p ->
  isPlaying p = false -> hasEnded p = false -> isMuted p = false ->
  voiceSourceRef p = Some old ->
  sceneAt scenes (currentIndex p) = Some sc ->
  playable sc = true ->
  let q := step pf scenes PlayPause p in
  session q = (currentIndex p, true, false, false) /\
  exists new, voiceSourceRef q = Some new /\ (old < new)%nat /\
              (length (sources p) < length (sources q))%nat.
Proof.
  intros Hwf Hpl Hen Hmu Href Hsc Hok q. subst q.
  pose proof (handlePlayPause_session pf scenes p) as Hs.
  rewrite Hpl, Hen, Hmu in Hs.
  destruct (handlePlayPause_follows pf scenes p Hwf) as [_ (Hlen & _ & _)].
  unfold step, rerender. cbn [handler].
  unfold session in Hs. injection Hs as Hi Hp' Hm' He'.
  case_decide as Hdeps; [unfold deps in Hdeps; rewrite Hp', Hpl in Hdeps; discriminate |].
  rewrite <- Hi in Hsc.
  destruct (voiceEffect_arms (handlePlayPause pf scenes p) sc Hp' Hm' Hsc Hok)
    as (Hs' & _ & _ & Hr' & buf & Hb').
  split.
  - rewrite Hs'. unfold session. rewrite Hi, Hp', Hm', He'. reflexivity.
  - exists (length (sources (handlePlayPause pf scenes p))).
    split; [exact Hr' |].
    apply lookup_lt_Some in Hb'. specialize (Hwf old Href). lia.
Qed.

End NaturalRun.

(** ** Scenes without usable narration *)

Lemma cleanUpPrevious_lookup i p s' :
  sources (cleanUpPrevious p) !! i = Some s' ->
  exists s, sources p !! i = Some s /\ (onended s' = None \/ s' = s).
Proof.
  unfold cleanUpPrevious.
  destruct (voiceSourceRef p) as [old |]; simpl; [| intros H; eauto].
  destruct (decide (old = i)) as [-> | Hne].
  - rewrite !list_lookup_alter_eq.
    destruct (sources p !! i) as [s |]; simpl; [| discriminate].
    intros [= <-]. exists s. split; [reflexivity | left; reflexivity].
  - rewrite !list_lookup_alter_ne by exact Hne. intros H; eauto.
Qed.

Lemma cleanUpPrevious_quiescent p : quiescent p -> quiescent (cleanUpPrevious p).
Proof.
  intros [Ht Hq]. destruct (cleanUpPrevious_frame p) as (_ & Ht' & _).
  split; [rewrite Ht'; exact Ht |].
  intros i s' Hs'. destruct (cleanUpPrevious_lookup i p s' Hs') as (s & Hs & [Hn | ->]).
  - left. exact Hn.
  - apply (Hq i s Hs).
Qed.

(** What a failed decode leaves behind. *)
Lemma playVoice_fails c data e p :
  decodeVoice data = inl e ->
  let q := playVoice c data p in
  session q = session p /\
  timers q = timers p /\
  audioContextRef q = audioContextRef p /\
  voiceSourceRef q = voiceSourceRef p /\
  length (sources q) = length (sources p) /\
  (forall i, onendedAt i q = None \/ onendedAt i q = onendedAt i p) /\
  (quiescent p -> quiescent q) /\
  (is_Some (audioContextRef p) ->
   console q = console p ++ ["Error creating voice source"%string]).
Proof.
  intros Hdec q. subst q. rewrite playVoice_spec, Hdec.
  destruct (cleanUpPrevious_frame p) as (Hs & Ht & Hc & Hr & Hco & Hl).
  destruct (audioContextRef p) as [st |] eqn:Hctx.
  - cbn zeta. split; [exact Hs |]. split; [exact Ht |]. split; [exact Hc |].
    split; [exact Hr |]. split; [exact Hl |]. split; [| split].
    + intros i. change (onendedAt i (consoleError "Error creating voice source" (cleanUpPrevious p)))
        with (onendedAt i (cleanUpPrevious p)).
      rewrite cleanUpPrevious_onended. case_decide; [left | right]; reflexivity.
    + intros Hq. apply (cleanUpPrevious_quiescent p Hq).
    + intros _. simpl. rewrite Hco. reflexivity.
  - split; [reflexivity |]. split; [reflexivity |]. split; [exact Hctx |].
    split; [reflexivity |]. split; [reflexivity |].
    split; [intros i; right; reflexivity |]. split; [tauto |].
    intros [x Hx]. discriminate.
Qed.

(** C7: a zero-length payload does not decode -- the buffer cannot be
    created -- and neither does malformed base64; whichever error the decode
    raises, [playVoice] catches it and logs it: index and flags are as
    before, no timer is set, no source is created or given a handler, so the
    scene is left as one without narration. *)
Theorem decode_error_is_not_fatal :
  decodePcm [] = throw NotSupportedError /\
  (forall data e, Base64.atob data = inl e -> decodeVoice data = inl e) /\
  (forall c data e p,
     decodeVoice data = inl e ->
     let q := playVoice c data p in
     session q = session p /\
     timers q = timers p /\
     voiceSourceRef q = voiceSourceRef p /\
     length (sources q) = length (sources p) /\
     (forall i, onendedAt i q = None \/ onendedAt i q = onendedAt i p) /\
     (is_Some (audioContextRef p) ->
      console q = console p ++ ["Error creating voice source"%string])).
Proof.
  split; [reflexivity |]. split.
  - intros data e Hat. unfold decodeVoice. rewrite Hat. reflexivity.
  - intros c data e p Hdec q.
    destruct (playVoice_fails c data e p Hdec) as (H1 & H2 & _ & H4 & H5 & H6 & _ & H8).
    repeat split; assumption.
Qed.

Section SilentScenes.

Variable pf : Platform.
Variable scenes : list PoemScene.

Lemma voiceEffect_cases p :
  (sources (voiceEffect pf scenes p) = sources p /\
   voiceSourceRef (voiceEffect pf scenes p) = voiceSourceRef p) \/
  (exists p' sc data,
     sources p' = sources p /\ voiceSourceRef p' = voiceSourceRef p /\
     timers p' = timers p /\
     sceneAt scenes (currentIndex p) = Some sc /\
     truthy (audioBase64 sc) = Some data /\
     voiceEffect pf scenes p = playVoice (currentIndex p) data p').
Proof.
  unfold voiceEffect, initAudio, resume, suspend.
  break_match;
    first [ left; split; reflexivity
          | right; eexists _, _, _;
            split; [| split; [| split; [| split; [eassumption | split; [eassumption | reflexivity]]]]];
            reflexivity ].
Qed.

Lemma quiescent_same p q :
  sources q = sources p -> timers q = timers p -> quiescent p -> quiescent q.
Proof. intros Hs Ht [H1 H2]. split; [rewrite Ht; exact H1 | rewrite Hs; exact H2]. Qed.

(** Once nothing is pending, no event of the browser moves the session. *)
Lemma quiescent_step e p :
  quiescent p -> autonomous e = true ->
  session (step pf scenes e p) = session p /\ quiescent (step pf scenes e p).
Proof.
  intros [Ht Hq] He.
  assert (session (handler pf scenes e p) = session p /\ quiescent (handler pf scenes e p))
    as [Hs Hq'].
  { destruct e; try discriminate; unfold handler.
    - unfold sourceEnded. destruct (sources p !! i) as [s |] eqn:Hs;
        [| split; [reflexivity | split; assumption]].
      destruct (playbackState s) eqn:Hst; try (split; [reflexivity | split; assumption]).
      all: destruct (Hq i s Hs) as [Hn | Hf]; [| congruence].
      all: rewrite Hn; split; [reflexivity |].
      all: split; [exact Ht |]; simpl; intros j s' Hj.
      all: destruct (decide (i = j)) as [<- | Hne];
        [ rewrite list_lookup_insert_eq in Hj by (eapply lookup_lt_Some; exact Hs);
          injection Hj as <-; right; reflexivity
        | rewrite list_lookup_insert_ne in Hj by exact Hne; apply (Hq j s' Hj) ].
    - unfold timerFired. rewrite Ht. split; [reflexivity | split; assumption].
    - split; [reflexivity | split; assumption]. }
  unfold step. rewrite rerender_same; [split; assumption |].
  unfold deps. unfold session in Hs. congruence.
Qed.

Lemma quiescent_run es p :
  quiescent p -> forallb autonomous es = true ->
  session (run pf scenes es p) = session p /\ quiescent (run pf scenes es p).
Proof.
  revert p. induction es as [| e es IH]; intros p Hq Hes; simpl.
  - split; [reflexivity | exact Hq].
  - simpl in Hes. apply andb_true_iff in Hes as [He Hes].
    destruct (quiescent_step e p Hq He) as [Hs Hq'].
    destruct (IH _ Hq' Hes) as [Hs' Hq''].
    split; [congruence | exact Hq''].
Qed.

(** C2 (amended): starting playback of a scene that has no narration bytes,
    or whose narration does not decode, sets no timer and creates no source,
    and no source gains a handler; the session stays at the same index and
    flags, and if nothing was pending before, no event of the browser ever
    moves it: only a user intent does. *)
Theorem silent_scene_schedules_nothing p :
  (forall sc, sceneAt scenes (currentIndex p) = Some sc -> playable sc = false) ->
  let q := voiceEffect pf scenes p in
  session q = session p /\
  timers q = timers p /\
  length (sources q) = length (sources p) /\
  (forall i, onendedAt i q = None \/ onendedAt i q = onendedAt i p) /\
  (quiescent p ->
   forall es, forallb autonomous es = true ->
              session (run pf scenes es q) = session p).
Proof.
  intros Hsilent q. subst q.
  split; [apply voiceEffect_session |].
  split; [apply voiceEffect_timers |].
  assert (length (sources (voiceEffect pf scenes p)) = length (sources p) /\
          (forall i, onendedAt i (voiceEffect pf scenes p) = None \/
                     onendedAt i (voiceEffect pf scenes p) = onendedAt i p) /\
          (quiescent p -> quiescent (voiceEffect pf scenes p))) as (Hl & Ho & Hq).
  { destruct (voiceEffect_cases p) as [[Hs Hr] | (p' & sc & data & Hs & Hr & Ht & Hsc & Hdata & ->)].
    - split; [rewrite Hs; reflexivity |]. split.
      + intros i. right. unfold onendedAt. rewrite Hs. reflexivity.
      + intros Hq. eapply quiescent_same; [exact Hs | apply voiceEffect_timers | exact Hq].
    - specialize (Hsilent sc Hsc). unfold playable in Hsilent. rewrite Hdata in Hsilent.
      destruct (decodeVoice data) as [e |] eqn:Hdec; [| discriminate].
      destruct (playVoice_fails (currentIndex p) data e p' Hdec)
        as (_ & _ & _ & _ & Hl' & Ho' & Hq' & _).
      split; [rewrite Hl', Hs; reflexivity |]. split.
      + intros i. destruct (Ho' i) as [Hn | Hsame]; [left; exact Hn | right].
        rewrite Hsame. unfold onendedAt. rewrite Hs. reflexivity.
      + intros Hq. apply Hq'. eapply quiescent_same; [exact Hs | exact Ht | exact Hq]. }
  split; [exact Hl |]. split; [exact Ho |].
  intros Hquiet es Hes.
  destruct (quiescent_run es _ (Hq Hquiet) Hes) as [Hs _].
  rewrite Hs. apply voiceEffect_session.
Qed.

End SilentScenes.

(** ** One armed source at a time *)

Lemma singleArmed_same_audio p q :
  sources q = sources p -> voiceSourceRef q = voiceSourceRef p ->
  singleArmed p -> singleArmed q.
Proof. intros Hs Hr Hp i. unfold onendedAt. rewrite Hs, Hr. apply Hp. Qed.

Lemma cleanUpPrevious_detaches_all p :
  singleArmed p -> forall i, onendedAt i (cleanUpPrevious p) = None.
Proof.
  intros Hp i. rewrite cleanUpPrevious_onended.
  case_decide as Hi; [reflexivity |].
  destruct (Hp i) as [Hn | Hr]; [exact Hn | contradiction].
Qed.

Lemma playVoice_singleArmed c data p :
  singleArmed p -> singleArmed (playVoice c data p).
Proof.
  intros Hp. rewrite playVoice_spec.
  destruct (audioContextRef p); [| exact Hp].
  pose proof (cleanUpPrevious_detaches_all p Hp) as Hnone.
  destruct (cleanUpPrevious_frame p) as (_ & _ & _ & _ & _ & Hlen).
  cbn zeta. destruct (decodeVoice data) as [e | audioBuffer]; intros i.
  - left. apply Hnone.
  - destruct (Nat.lt_trichotomy i (length (sources p))) as [Hlt | [-> | Hgt]].
    + left. unfold onendedAt. simpl. rewrite lookup_app_l by lia. apply Hnone.
    + right. reflexivity.
    + left. unfold onendedAt. simpl.
      rewrite lookup_ge_None_2; [reflexivity |]. rewrite length_app. simpl. lia.
Qed.

Section SingleSource.

Variable pf : Platform.
Variable scenes : list PoemScene.

Lemma handler_cases e p :
  (sources (handler pf scenes e p) = sources p /\
   voiceSourceRef (handler pf scenes e p) = voiceSourceRef p) \/
  (exists p' c data,
     sources p' = sources p /\ voiceSourceRef p' = voiceSourceRef p /\
     handler pf scenes e p = playVoice c data p') \/
  (exists i, handler pf scenes e p = sourceEnded scenes i p).
Proof.
  destruct e; unfold handler.
  4: { left. destruct (decide (idx < length scenes)%nat).
       - rewrite selectScene_inside by assumption. split; reflexivity.
       - rewrite selectScene_outside by lia. split; reflexivity. }
  6: { right. right. eexists. reflexivity. }
  all: unfold handlePlayPause, handleNext, handlePrev, handleReplay, toggleMute,
         timerFired, timeoutCallback, initAudio, resume, suspend.
  all: break_match;
    first [ left; split; reflexivity
          | right; left; eexists _, _, _; split; [| split; [| reflexivity]]; reflexivity ].
Qed.

Lemma voiceEffect_singleArmed p :
  singleArmed p -> singleArmed (voiceEffect pf scenes p).
Proof.
  intros Hp.
  destruct (voiceEffect_cases pf scenes p)
    as [[Hs Hr] | (p' & sc & data & Hs & Hr & _ & _ & _ & ->)].
  - exact (singleArmed_same_audio p _ Hs Hr Hp).
  - apply playVoice_singleArmed. exact (singleArmed_same_audio p p' Hs Hr Hp).
Qed.

Lemma step_singleArmed e p :
  singleArmed p -> singleArmed (step pf scenes e p).
Proof.
  intros Hp.
  assert (singleArmed (handler pf scenes e p)) as Hh.
  { destruct (handler_cases e p)
      as [[Hs Hr] | [(p' & c & data & Hs & Hr & ->) | (i & ->)]].
    - exact (singleArmed_same_audio p _ Hs Hr Hp).
    - apply playVoice_singleArmed. exact (singleArmed_same_audio p p' Hs Hr Hp).
    - destruct (sourceEnded_audio scenes i p) as (_ & Hr & Ho).
      intros j. rewrite Ho, Hr. apply Hp. }
  unfold step, rerender. case_decide; [exact Hh |].
  apply voiceEffect_singleArmed. exact Hh.
Qed.

(** In every run from mount, a source that holds a completion handler is
    the active source: no second source can report a completion. *)
Theorem at_most_one_armed_source autoPlay es i :
  let p := run pf scenes es (mount pf scenes autoPlay) in
  onendedAt i p = None \/ voiceSourceRef p = Some i.
Proof.
  intros p. subst p.
  assert (singleArmed (mount pf scenes autoPlay)) as H0.
  { rewrite mount_unfold. destruct (autoPlay && (0 <? sceneCount scenes)).
    - apply voiceEffect_singleArmed. intros j. left. destruct j; reflexivity.
    - intros j. left. destruct j; reflexivity. }
  revert H0. generalize (mount pf scenes autoPlay) as p.
  induction es as [| e es IH]; intros p Hp; simpl.
  - apply Hp.
  - apply IH. apply step_singleArmed. exact Hp.
Qed.

End SingleSource.

(** ** The end screen *)

Lemma trimStart_nil s :
  JsString.trimStart s = [] <-> forallb JsString.isWhiteSpace s = true.
Proof.
  induction s as [| c r IH]; simpl; [tauto |].
  destruct (JsString.isWhiteSpace c); simpl; [exact IH |].
  split; discriminate.
Qed.

Lemma trimStart_head s c r :
  JsString.trimStart s = c :: r -> JsString.isWhiteSpace c = false.
Proof.
  induction s as [| d t IH]; simpl; [discriminate |].
  destruct (JsString.isWhiteSpace d) eqn:Hd; [exact IH |].
  intros [= <- _]. exact Hd.
Qed.

Lemma forallb_rev {A} (f : A -> bool) (l : list A) :
  forallb f (rev l) = forallb f l.
Proof.
  induction l as [| x l IH]; simpl; [reflexivity |].
  rewrite forallb_app, IH. simpl. rewrite andb_true_r. apply andb_comm.
Qed.

Lemma trim_nil s :
  JsString.trim s = [] <-> forallb JsString.isWhiteSpace s = true.
Proof.
  unfold JsString.trim, JsString.trimEnd. split.
  - intros H. apply (f_equal (@rev Z)) in H. rewrite rev_involutive in H. simpl in H.
    apply trimStart_nil in H. rewrite forallb_rev in H.
    destruct (JsString.trimStart s) as [| c r] eqn:Hs; [apply trimStart_nil; exact Hs |].
    apply trimStart_head in Hs. simpl in H. rewrite Hs in H. discriminate.
  - intros H. apply trimStart_nil in H. rewrite H. reflexivity.
Qed.

Lemma notBlank_false line :
  notBlank line = false <-> forallb JsString.isWhiteSpace line = true.
Proof.
  rewrite <- trim_nil. unfold notBlank.
  destruct (JsString.trim line); split; congruence.
Qed.

Lemma split_nonempty s : JsString.split s <> [].
Proof.
  destruct s as [| c r]; simpl; [discriminate |].
  destruct (c =? JsString.LF); [discriminate |].
  destruct (JsString.split r); discriminate.
Qed.

Lemma join_cons sep l rest :
  rest <> [] -> JsString.join sep (l :: rest) = l ++ sep ++ JsString.join sep rest.
Proof. destruct rest; [contradiction | reflexivity]. Qed.

(** Splitting at line feeds and joining with line feeds are inverse. *)
Lemma join_split s : JsString.join [JsString.LF] (JsString.split s) = s.
Proof.
  induction s as [| c r IH]; [reflexivity |].
  pose proof (split_nonempty r) as Hne.
  cbn [JsString.split].
  destruct (Z.eqb_spec c JsString.LF) as [-> | Hc].
  - rewrite join_cons by exact Hne. rewrite IH. reflexivity.
  - destruct (JsString.split r) as [| l ls]; [contradiction |].
    rewrite <- IH. destruct ls; reflexivity.
Qed.

Lemma split_no_LF s :
  Forall (fun l => JsString.LF ∉ l) (JsString.split s).
Proof.
  induction s as [| c r IH]; simpl.
  - constructor; [apply not_elem_of_nil | constructor].
  - destruct (Z.eqb_spec c JsString.LF) as [-> | Hc].
    + constructor; [apply not_elem_of_nil | exact IH].
    + destruct (JsString.split r) as [| l ls].
      * constructor; [| constructor]. rewrite list_elem_of_singleton. congruence.
      * inversion IH as [| ? ? Hl Hls]; subst. constructor; [| exact Hls].
        rewrite not_elem_of_cons. split; [congruence | exact Hl].
Qed.

Lemma split_line l :
  JsString.LF ∉ l -> JsString.split l = [l].
Proof.
  induction l as [| c r IH]; intros Hl; [reflexivity |].
  rewrite not_elem_of_cons in Hl. destruct Hl as [Hc Hr].
  simpl. destruct (Z.eqb_spec c JsString.LF) as [-> | _]; [congruence |].
  rewrite IH by exact Hr. reflexivity.
Qed.

Lemma split_app_LF l r :
  JsString.LF ∉ l ->
  JsString.split (l ++ JsString.LF :: r) = l :: JsString.split r.
Proof.
  induction l as [| c t IH]; intros Hl; [reflexivity |].
  rewrite not_elem_of_cons in Hl. destruct Hl as [Hc Ht].
  simpl. destruct (Z.eqb_spec c JsString.LF) as [-> | _]; [congruence |].
  rewrite IH by exact Ht. reflexivity.
Qed.

Lemma split_join ls :
  ls <> [] -> Forall (fun l => JsString.LF ∉ l) ls ->
  JsString.split (JsString.join [JsString.LF] ls) = ls.
Proof.
  induction ls as [| l rest IH]; intros Hne Hall; [contradiction |].
  inversion Hall as [| ? ? Hl Hrest]; subst.
  destruct rest as [| l' rest'].
  - simpl. apply split_line. exact Hl.
  - rewrite join_cons by discriminate.
    change ([JsString.LF] ++ JsString.join [JsString.LF] (l' :: rest'))
      with (JsString.LF :: JsString.join [JsString.LF] (l' :: rest')).
    rewrite split_app_LF by exact Hl.
    rewrite IH; [reflexivity | discriminate | exact Hrest].
Qed.

Lemma isPunctuation_not_LF c : isPunctuation c = true -> c <> JsString.LF.
Proof. intros H ->. discriminate. Qed.

Lemma split_replacePunctuation s :
  Forall (fun l => punctuationOnlyLast l = true)
         (JsString.split (replacePunctuation s)).
Proof.
  induction s as [| c r IH]; [repeat constructor |].
  cbn [replacePunctuation].
  destruct (isPunctuation c) eqn:Hp.
  - pose proof (isPunctuation_not_LF c Hp) as Hc.
    cbn [JsString.split]. destruct (Z.eqb_spec c JsString.LF); [contradiction |].
    rewrite Z.eqb_refl. constructor; [reflexivity | exact IH].
  - cbn [JsString.split]. destruct (c =? JsString.LF); [constructor; [reflexivity | exact IH] |].
    destruct (JsString.split (replacePunctuation r)) as [| l ls]; [repeat constructor |].
    inversion IH as [| ? ? Hl Hls]; subst. constructor; [| exact Hls].
    cbn [punctuationOnlyLast]. destruct l; [reflexivity |]. rewrite Hp. exact Hl.
Qed.

Lemma punctuationOnlyLast_lookup line i c :
  punctuationOnlyLast line = true ->
  line !! i = Some c -> isPunctuation c = true -> S i = length line.
Proof.
  revert i. induction line as [| d r IH]; intros i Hl Hi Hp; [discriminate |].
  cbn [punctuationOnlyLast] in Hl. destruct r as [| e r'].
  - destruct i; [reflexivity | discriminate].
  - apply andb_true_iff in Hl as [Hd Hr]. destruct i as [| i].
    + injection Hi as ->. rewrite Hp in Hd. discriminate.
    + simpl in Hi. simpl. f_equal. apply (IH i Hr Hi Hp).
Qed.

Lemma join_nil_sep (ls : list (list Z)) : JsString.join [] ls = concat ls.
Proof.
  induction ls as [| l rest IH]; [reflexivity |].
  cbn [JsString.join concat]. rewrite <- IH. destruct rest; [| reflexivity].
  simpl. rewrite app_nil_r. reflexivity.
Qed.

Lemma visibleUnits_app s t : visibleUnits (s ++ t) = visibleUnits s ++ visibleUnits t.
Proof. apply filter_app. Qed.

Lemma visibleUnits_join ls :
  visibleUnits (JsString.join [JsString.LF] ls) = concat (map visibleUnits ls).
Proof.
  induction ls as [| l rest IH]; [reflexivity |].
  destruct rest as [| l' rest'].
  - simpl. rewrite app_nil_r. reflexivity.
  - rewrite join_cons by discriminate.
    rewrite visibleUnits_app. cbn [map concat]. f_equal.
    change ([JsString.LF] ++ JsString.join [JsString.LF] (l' :: rest'))
      with ([JsString.LF] ++ JsString.join [JsString.LF] (l' :: rest')).
    rewrite visibleUnits_app. exact IH.
Qed.

Lemma visibleUnits_replacePunctuation s :
  visibleUnits (replacePunctuation s) = visibleUnits s.
Proof.
  induction s as [| c r IH]; [reflexivity |].
  cbn [replacePunctuation]. destruct (isPunctuation c).
  - change (c :: JsString.LF :: replacePunctuation r)
      with ([c; JsString.LF] ++ replacePunctuation r).
    change (c :: r) with ([c] ++ r).
    rewrite !visibleUnits_app, IH. reflexivity.
  - change (c :: replacePunctuation r) with ([c] ++ replacePunctuation r).
    change (c :: r) with ([c] ++ r).
    rewrite !visibleUnits_app, IH. reflexivity.
Qed.

Lemma visibleUnits_blank line :
  notBlank line = false -> visibleUnits line = [].
Proof.
  rewrite notBlank_false. unfold visibleUnits.
  induction line as [| c r IH]; simpl; [reflexivity |].
  intros H. apply andb_true_iff in H as [Hc Hr].
  rewrite filter_cons. destruct (decide (JsString.isWhiteSpace c = false)); [congruence |].
  apply IH. exact Hr.
Qed.

Lemma visibleUnits_drop_blank ls :
  concat (map visibleUnits (filter (fun line => notBlank line = true) ls))
  = concat (map visibleUnits ls).
Proof.
  induction ls as [| l rest IH]; [reflexivity |].
  rewrite filter_cons. destruct (decide (notBlank l = true)) as [Hl | Hl].
  - simpl. rewrite IH. reflexivity.
  - simpl. rewrite visibleUnits_blank by (destruct (notBlank l); congruence).
    exact IH.
Qed.

Section EndScreenFacts.

Variable units : string -> list Z.
Variable scenes : list PoemScene.

(** The lines of the end screen: none is blank, none holds a line feed, a
    punctuation mark of the expression's class can only be the last code unit
    of its line, and the text the component renders splits back into exactly
    these lines (an empty list of lines renders as the empty text). *)
Theorem end_screen_lines :
  Forall (fun line =>
            notBlank line = true /\ (JsString.LF ∉ line) /\
            forall i c, line !! i = Some c -> isPunctuation c = true ->
                        S i = length line)
         (endScreenLines units scenes) /\
  (endScreenLines units scenes <> [] ->
   JsString.split (endScreenText units scenes) = endScreenLines units scenes) /\
  (endScreenLines units scenes = [] -> endScreenText units scenes = []).
Proof.
  assert (Forall (fun l => JsString.LF ∉ l) (endScreenLines units scenes)) as Hlf.
  { unfold endScreenLines. rewrite Forall_forall. intros line Hin.
    apply list_elem_of_filter in Hin as [_ Hin].
    pose proof (split_no_LF (replacePunctuation (fullPoem units scenes))) as H.
    rewrite Forall_forall in H. apply H, Hin. }
  split; [| split].
  - unfold endScreenLines in *. rewrite Forall_forall. intros line Hin.
    apply list_elem_of_filter in Hin as [Hnb Hin].
    split; [exact Hnb |]. split.
    + pose proof (split_no_LF (replacePunctuation (fullPoem units scenes))) as H.
      rewrite Forall_forall in H. apply H, Hin.
    + intros i c Hi Hp.
      pose proof (split_replacePunctuation (fullPoem units scenes)) as H.
      rewrite Forall_forall in H.
      apply (punctuationOnlyLast_lookup line i c); [| exact Hi | exact Hp].
      apply H, Hin.
  - intros Hne. unfold endScreenText. apply split_join; assumption.
  - intros Hnil. unfold endScreenText. rewrite Hnil. reflexivity.
Qed.

(** The end screen shows every visible code unit of the scenes' texts, in
    their order, and nothing else: formatting only adds and removes white
    space. *)
Theorem end_screen_keeps_visible_text :
  visibleUnits (endScreenText units scenes)
  = visibleUnits (concat (map (fun s => units (originalText s)) scenes)).
Proof.
  unfold endScreenText, endScreenLines.
  rewrite visibleUnits_join, visibleUnits_drop_blank, <- visibleUnits_join.
  rewrite join_split, visibleUnits_replacePunctuation.
  unfold fullPoem. rewrite join_nil_sep. reflexivity.
Qed.

End EndScreenFacts.

(** ** The range of the decoded samples *)

Lemma land_255_range (x : Z) : 0 <= Z.land x 255 < 256.
Proof.
  change 255 with (Z.ones 8). rewrite Z.land_ones by lia.
  apply Z.mod_pos_bound. reflexivity.
Qed.

Lemma octets_range (n : nat) (vs : list Z) :
  (length vs <= n)%nat ->
  Forall (fun b => 0 <= b < 256) (Base64.octets vs).
Proof.
  revert vs. induction n as [| n IH]; intros vs Hlen.
  - destruct vs; [constructor | simpl in Hlen; lia].
  - destruct vs as [| a [| b [| c [| d rest]]]]; cbn [Base64.octets].
    + constructor.
    + constructor.
    + repeat constructor; apply land_255_range.
    + repeat constructor; apply land_255_range.
    + repeat (constructor; [apply land_255_range |]).
      apply IH. simpl in Hlen. lia.
Qed.

Lemma atob_range data bytes :
  Base64.atob data = inr bytes -> Forall (fun b => 0 <= b < 256) bytes.
Proof.
  unfold Base64.atob.
  destruct (_ mod 4 =? 1); [discriminate |].
  destruct (Base64.sextets _) as [vs |]; [| discriminate].
  intros [= <-]. apply (octets_range (length vs)). lia.
Qed.

Lemma int16_le_bounds (lo hi : Z) :
  0 <= lo < 256 -> 0 <= hi < 256 -> -32768 <= int16_le lo hi < 32768.
Proof.
  intros Hlo Hhi. unfold int16_le.
  assert (0 <= Z.lor lo (Z.shiftl hi 8) < 65536) as Hu.
  { split.
    - apply Z.lor_nonneg. split; [lia | apply Z.shiftl_nonneg; lia].
    - assert (Z.lor lo (Z.shiftl hi 8) < 2 ^ 16) as H16; [| exact H16].
      destruct (Z.eq_dec (Z.lor lo (Z.shiftl hi 8)) 0) as [-> | Hnz]; [reflexivity |].
      apply Z.log2_lt_pow2.
      + assert (0 <= Z.lor lo (Z.shiftl hi 8))
          by (apply Z.lor_nonneg; split; [lia | apply Z.shiftl_nonneg; lia]).
        lia.
      + rewrite Z.log2_lor by (try apply Z.shiftl_nonneg; lia).
        apply Z.max_lub_lt.
        * destruct (Z.eq_dec lo 0) as [-> | ?]; [reflexivity |].
          assert (Z.log2 lo < 8) by (apply Z.log2_lt_pow2; lia). lia.
        * destruct (Z.eq_dec hi 0) as [-> | ?]; [reflexivity |].
          rewrite Z.log2_shiftl by lia.
          assert (Z.log2 hi < 8) by (apply Z.log2_lt_pow2; lia). lia. }
  destruct (Z.ltb_spec (Z.lor lo (Z.shiftl hi 8)) 32768); lia.
Qed.

Lemma int16_elements_range bytes :
  Forall (fun b => 0 <= b < 256) bytes ->
  Forall (fun s => -32768 <= s < 32768) (int16_elements bytes).
Proof.
  induction bytes as [| x | lo hi rest IH] using list_pair_ind; intros Hb.
  - constructor.
  - constructor.
  - inversion Hb as [| ? ? Hlo Hb']; subst. inversion Hb' as [| ? ? Hhi Hrest]; subst.
    cbn [int16_elements]. constructor; [apply int16_le_bounds; assumption |].
    apply IH. exact Hrest.
Qed.

Lemma toFloat_range (s : Z) :
  -32768 <= s < 32768 -> (-1 <= toFloat s)%Q /\ (toFloat s < 1)%Q.
Proof.
  intros Hs. unfold toFloat, Qdiv, Qmult, Qinv, Qle, Qlt. simpl. lia.
Qed.

(** Whatever narration decodes, its buffer is mono at 24 kHz, holds at
    least one sample, and every sample lies in [-1, 1). *)
Theorem decoded_samples_in_unit_range data audioBuffer :
  decodeVoice data = ok audioBuffer ->
  numberOfChannels audioBuffer = 1 /\
  sampleRate audioBuffer = 24000 /\
  (1 <= length (channelData audioBuffer))%nat /\
  Forall (fun x => (-1 <= x)%Q /\ (x < 1)%Q) (channelData audioBuffer).
Proof.
  unfold decodeVoice.
  destruct (Base64.atob data) as [e | bytes] eqn:Hat; [discriminate |].
  cbn [bind]. rewrite decodePcm_spec.
  destruct (Nat.ltb_spec (length bytes) 2) as [Hlt | Hge]; [discriminate |].
  intros [= <-]. cbn [numberOfChannels sampleRate channelData].
  split; [reflexivity |]. split; [reflexivity |]. split.
  - rewrite length_fmap, int16_elements_length.
    apply Nat.div_le_lower_bound; lia.
  - apply Forall_fmap.
    eapply Forall_impl; [apply int16_elements_range, (atob_range data), Hat |].
    intros s Hs. apply toFloat_range. exact Hs.
Qed.

(** ** Invariants of every run *)

Lemma sceneAt_range scenes c sc :
  sceneAt scenes c = Some sc -> 0 <= c < sceneCount scenes.
Proof.
  unfold sceneAt, sceneCount. destruct (Z.ltb_spec c 0) as [Hneg | Hpos]; [discriminate |].
  intros Hsc. apply lookup_lt_Some in Hsc. lia.
Qed.

Lemma playVoice_newestActive c data p :
  newestActive p -> newestActive (playVoice c data p).
Proof.
  unfold newestActive. intros Hp. rewrite playVoice_spec.
  destruct (audioContextRef p); [| exact Hp].
  destruct (cleanUpPrevious_frame p) as (_ & _ & _ & Href & _ & Hlen).
  cbn zeta. destruct (decodeVoice data); simpl.
  - rewrite Href, Hlen. exact Hp.
  - rewrite length_app, Hlen. simpl.
    replace (length (sources p) + 1)%nat with (S (length (sources p))) by lia.
    reflexivity.
Qed.

Lemma newestActive_same_audio p q :
  sources q = sources p -> voiceSourceRef q = voiceSourceRef p ->
  newestActive p -> newestActive q.
Proof. unfold newestActive. intros -> ->. auto. Qed.

Section RunInvariants.

Variable pf : Platform.
Variable scenes : list PoemScene.

Lemma playVoice_capturedInRange c data p :
  0 <= c < sceneCount scenes ->
  capturedInRange scenes p -> capturedInRange scenes (playVoice c data p).
Proof.
  intros Hc Hp. rewrite playVoice_spec.
  destruct (audioContextRef p); [| exact Hp].
  destruct (cleanUpPrevious_frame p) as (_ & _ & _ & _ & _ & Hlen).
  assert (forall i d, onendedAt i (cleanUpPrevious p) = Some d ->
                      0 <= d < sceneCount scenes) as Hclean.
  { intros i d. rewrite cleanUpPrevious_onended.
    case_decide; [discriminate | apply Hp]. }
  cbn zeta. destruct (decodeVoice data) as [e | audioBuffer]; intros i d.
  - apply Hclean.
  - unfold onendedAt. simpl.
    destruct (Nat.lt_trichotomy i (length (sources (cleanUpPrevious p))))
      as [Hlt | [-> | Hgt]].
    + rewrite lookup_app_l by exact Hlt. apply Hclean.
    + rewrite list_lookup_middle by reflexivity. simpl. intros [= <-]. exact Hc.
    + rewrite lookup_ge_None_2; [discriminate |]. rewrite length_app. simpl. lia.
Qed.

Lemma capturedInRange_same_audio p q :
  sources q = sources p -> capturedInRange scenes p -> capturedInRange scenes q.
Proof. intros Hs Hp i c. unfold onendedAt. rewrite Hs. apply Hp. Qed.

(** The handlers, with the index a [playVoice] they issue has captured. *)
Lemma handler_cases_scene e p :
  (sources (handler pf scenes e p) = sources p /\
   voiceSourceRef (handler pf scenes e p) = voiceSourceRef p) \/
  (exists p' c sc data,
     sources p' = sources p /\ voiceSourceRef p' = voiceSourceRef p /\
     sceneAt scenes c = Some sc /\
     handler pf scenes e p = playVoice c data p') \/
  (exists i, handler pf scenes e p = sourceEnded scenes i p).
Proof.
  destruct e; unfold handler.
  4: { left. destruct (decide (idx < length scenes)%nat).
       - rewrite selectScene_inside by assumption. split; reflexivity.
       - rewrite selectScene_outside by lia. split; reflexivity. }
  6: { right. right. eexists. reflexivity. }
  all: unfold handlePlayPause, handleNext, handlePrev, handleReplay, toggleMute,
         timerFired, timeoutCallback, initAudio, resume, suspend.
  all: break_match;
    first [ left; split; reflexivity
          | right; left; eexists _, _, _, _;
            split; [| split; [| split; [eassumption | reflexivity]]]; reflexivity ].
Qed.

Lemma voiceEffect_wellFormed p :
  wellFormed scenes p -> wellFormed scenes (voiceEffect pf scenes p).
Proof.
  intros (Hn & Hs & Hc).
  destruct (voiceEffect_cases pf scenes p)
    as [[Hsrc Href] | (p' & sc & data & Hsrc & Href & _ & Hsc & _ & ->)].
  - split; [| split].
    + exact (newestActive_same_audio p _ Hsrc Href Hn).
    + exact (singleArmed_same_audio p _ Hsrc Href Hs).
    + exact (capturedInRange_same_audio p _ Hsrc Hc).
  - split; [| split].
    + apply playVoice_newestActive. exact (newestActive_same_audio p p' Hsrc Href Hn).
    + apply playVoice_singleArmed. exact (singleArmed_same_audio p p' Hsrc Href Hs).
    + apply playVoice_capturedInRange; [exact (sceneAt_range _ _ _ Hsc) |].
      exact (capturedInRange_same_audio p p' Hsrc Hc).
Qed.

Lemma step_wellFormed e p :
  wellFormed scenes p -> wellFormed scenes (step pf scenes e p).
Proof.
  intros (Hn & Hs & Hc).
  assert (wellFormed scenes (handler pf scenes e p)) as Hh.
  { destruct (handler_cases_scene e p)
      as [[Hsrc Href] | [(p' & c & sc & data & Hsrc & Href & Hsc & ->) | (i & ->)]].
    - split; [| split].
      + exact (newestActive_same_audio p _ Hsrc Href Hn).
      + exact (singleArmed_same_audio p _ Hsrc Href Hs).
      + exact (capturedInRange_same_audio p _ Hsrc Hc).
    - split; [| split].
      + apply playVoice_newestActive. exact (newestActive_same_audio p p' Hsrc Href Hn).
      + apply playVoice_singleArmed. exact (singleArmed_same_audio p p' Hsrc Href Hs).
      + apply playVoice_capturedInRange; [exact (sceneAt_range _ _ _ Hsc) |].
        exact (capturedInRange_same_audio p p' Hsrc Hc).
    - destruct (sourceEnded_audio scenes i p) as (Hl & Hr & Ho).
      split; [| split].
      + unfold newestActive. rewrite Hl, Hr. exact Hn.
      + intros j. rewrite Ho, Hr. apply Hs.
      + intros j c. rewrite Ho. apply Hc. }
  unfold step, rerender. case_decide; [exact Hh |].
  apply voiceEffect_wellFormed. exact Hh.
Qed.

Lemma run_wellFormed es p :
  wellFormed scenes p -> wellFormed scenes (run pf scenes es p).
Proof.
  revert p. induction es as [| e es IH]; intros p Hp; simpl; [exact Hp |].
  apply IH, step_wellFormed, Hp.
Qed.

Lemma initial_wellFormed : wellFormed scenes initial.
Proof.
  split; [reflexivity |]. split.
  - intros i. left. destruct i; reflexivity.
  - intros i c H. destruct i; discriminate.
Qed.

Lemma mount_wellFormed autoPlay : wellFormed scenes (mount pf scenes autoPlay).
Proof.
  rewrite mount_unfold. destruct (autoPlay && (0 <? sceneCount scenes)).
  - apply voiceEffect_wellFormed.
    destruct initial_wellFormed as (Hn & Hs & Hc).
    split; [| split].
    + exact (newestActive_same_audio initial _ eq_refl eq_refl Hn).
    + exact (singleArmed_same_audio initial _ eq_refl eq_refl Hs).
    + exact (capturedInRange_same_audio initial _ eq_refl Hc).
  - apply initial_wellFormed.
Qed.

(** In every run from mount the active source is the source created last:
    the component never returns to an earlier narration. *)
Theorem active_source_is_newest autoPlay es :
  let p := run pf scenes es (mount pf scenes autoPlay) in
  voiceSourceRef p =
  match length (sources p) with
  | O => None
  | S n => Some n
  end.
Proof.
  intros p. subst p.
  apply (run_wellFormed es (mount pf scenes autoPlay) (mount_wellFormed autoPlay)).
Qed.

(** The flags after a handler: the ended flag is only ever set together
    with clearing the playing flag. *)
Lemma handler_ended_not_playing e p :
  hasEnded p = false \/ isPlaying p = false ->
  hasEnded (handler pf scenes e p) = false \/ isPlaying (handler pf scenes e p) = false.
Proof.
  intros Hp. destruct e; unfold handler.
  - pose proof (handlePlayPause_session pf scenes p) as Hs. unfold session in Hs.
    destruct (isPlaying p) eqn:Hpl, (hasEnded p) eqn:Hen;
      injection Hs as _ Hp' _ He'; rewrite ?Hp', ?He'; auto.
  - unfold handleNext. break_match; auto.
  - unfold handlePrev. break_match; auto.
  - destruct (decide (idx < length scenes)%nat).
    + rewrite selectScene_inside by assumption. auto.
    + rewrite selectScene_outside by lia. exact Hp.
  - exact Hp.
  - auto.
  - unfold sourceEnded, onendedHandler. break_match; auto.
  - unfold timerFired, timeoutCallback. break_match; auto.
  - exact Hp.
Qed.

(** In every run from mount the session is never ended and playing at the
    same time: the end screen is only shown over a stopped player. *)
Theorem ended_session_is_not_playing autoPlay es :
  let p := run pf scenes es (mount pf scenes autoPlay) in
  hasEnded p = false \/ isPlaying p = false.
Proof.
  intros p. subst p.
  assert (hasEnded (mount pf scenes autoPlay) = false) as H0.
  { pose proof (voiceEffect_session pf scenes (setIsPlaying true initial)) as Hs.
    rewrite mount_unfold. destruct (autoPlay && (0 <? sceneCount scenes)); [| reflexivity].
    unfold session in Hs. injection Hs as _ _ _ He. exact He. }
  assert (hasEnded (mount pf scenes autoPlay) = false \/
          isPlaying (mount pf scenes autoPlay) = false) as H by (left; exact H0).
  clear H0. revert H. generalize (mount pf scenes autoPlay) as p.
  induction es as [| e es IH]; intros p Hp; simpl; [exact Hp |].
  apply IH.
  pose proof (step_session pf scenes e p) as Hs. unfold session in Hs.
  injection Hs as _ Hpl _ Hen. rewrite Hpl, Hen.
  apply handler_ended_not_playing. exact Hp.
Qed.

(** In every run from mount, the only step that sets the ended flag is the
    completion of the active source, not yet reported, whose handler
    captured the last scene: the session ends only when a narration of the
    last scene plays to its end. *)
Theorem session_ends_only_at_last_scene autoPlay es e :
  let p := run pf scenes es (mount pf scenes autoPlay) in
  hasEnded p = false ->
  hasEnded (step pf scenes e p) = true ->
  exists i s,
    e = SourceEnded i /\ voiceSourceRef p = Some i /\
    sources p !! i = Some s /\ playbackState s <> Finished /\
    onended s = Some (sceneCount scenes - 1).
Proof.
  intros p Hen Hen'. 
  destruct (run_wellFormed es _ (mount_wellFormed autoPlay)) as (_ & Hsingle & Hrange).
  fold p in Hsingle, Hrange.
  pose proof (step_session pf scenes e p) as Hs. unfold session in Hs.
  injection Hs as _ _ _ Hh. rewrite Hh in Hen'. clear Hh.
  destruct e; unfold handler in Hen'.
  - pose proof (handlePlayPause_session pf scenes p) as Hs. unfold session in Hs.
    rewrite Hen in Hs. destruct (isPlaying p); injection Hs as _ _ _ He; congruence.
  - unfold handleNext in Hen'. revert Hen'. break_match; discriminate.
  - unfold handlePrev in Hen'. revert Hen'. break_match; discriminate.
  - destruct (decide (idx < length scenes)%nat).
    + rewrite selectScene_inside in Hen' by assumption. discriminate.
    + rewrite selectScene_outside in Hen' by lia. congruence.
  - simpl in Hen'. congruence.
  - discriminate.
  - unfold sourceEnded in Hen'.
    destruct (sources p !! i) as [s |] eqn:Hsrc; [| congruence].
    assert (playbackState s <> Finished) as Hst.
    { intros Hf. rewrite Hf in Hen'. congruence. }
    destruct (onended s) as [c |] eqn:Hon.
    + assert (onendedAt i p = Some c) as Hat by (unfold onendedAt; rewrite Hsrc; exact Hon).
      destruct (Hsingle i) as [Hnone | Href]; [congruence |].
      pose proof (Hrange i c Hat) as Hc.
      assert (hasEnded (onendedHandler scenes c
                (setSources (<[i := mkSource (buffer s) (Some c) Finished]> (sources p)) p))
              = true) as Hh.
      { destruct (playbackState s); [exact Hen' | exact Hen' | contradiction]. }
      unfold onendedHandler in Hh.
      destruct (Z.ltb_spec c (sceneCount scenes - 1)) as [Hlt | Hge];
        [simpl in Hh; congruence |].
      exists i, s. repeat split; try assumption.
      rewrite Hon. f_equal. lia.
    + destruct (playbackState s); simpl in Hen'; congruence.
  - unfold timerFired, timeoutCallback in Hen'. revert Hen'. break_match; simpl; congruence.
  - simpl in Hen'. congruence.
Qed.

End RunInvariants.

(** ** Replay *)

Section ReplayFacts.

Variable pf : Platform.
Variable scenes : list PoemScene.

(** A handler that leaves a stopped session at (0, playing, unmuted, not
    ended) with no timer makes the effect play scene 0. *)
Lemma restart_plays e p sc :
  isPlaying p = false ->
  session (handler pf scenes e p) = (0, true, false, false) ->
  timers (handler pf scenes e p) = [] ->
  scenes !! 0%nat = Some sc -> playable sc = true ->
  playingScene 0 (step pf scenes e p).
Proof.
  intros Hpl Hs Ht Hsc Hok.
  unfold session in Hs. injection Hs as Hi Hp' Hm' He'.
  unfold step, rerender.
  case_decide as Hdeps; [unfold deps in Hdeps; rewrite Hp', Hpl in Hdeps; discriminate |].
  assert (sceneAt scenes (currentIndex (handler pf scenes e p)) = Some sc) as Hat
    by (rewrite Hi; exact Hsc).
  destruct (voiceEffect_arms pf scenes (handler pf scenes e p) sc Hp' Hm' Hat Hok)
    as (Hs' & Hc' & Ht' & Hr' & buf & Hb').
  unfold playingScene. rewrite Hs', Ht', Ht. unfold session.
  rewrite Hi, Hp', Hm', He'. repeat split; try assumption.
  eexists _, _. repeat split; [exact Hr' | exact Hb' | | reflexivity].
  simpl. rewrite Hi. reflexivity.
Qed.

(** [replay] always resets to scene 0, playing, not ended, and keeps the
    muted flag.  On a stopped, unmuted session with no timer pending, whose
    scenes all have narration that decodes, it starts the narration of
    scene 0, and as many natural completions as there are scenes end the
    session again; pressing play in the ended state starts scene 0 the same
    way. *)
Theorem replay_plays_from_start p :
  session (step pf scenes Replay p) = (0, true, isMuted p, false) /\
  (isPlaying p = false -> isMuted p = false -> timers p = [] ->
   forallb playable scenes = true -> (1 <= length scenes)%nat ->
   playingScene 0 (step pf scenes Replay p) /\
   session (Nat.iter (length scenes) (completeActive pf scenes)
              (step pf scenes Replay p))
   = (sceneCount scenes - 1, false, false, true) /\
   (hasEnded p = true -> playingScene 0 (step pf scenes PlayPause p))).
Proof.
  split; [rewrite step_session; reflexivity |].
  intros Hpl Hmu Ht Hall Hne.
  destruct (lookup_lt_is_Some_2 scenes 0 Hne) as [sc Hsc].
  assert (playable sc = true) as Hok.
  { rewrite forallb_forall in Hall.
    apply Hall. eapply list_elem_of_In, list_elem_of_lookup_2, Hsc. }
  assert (playingScene 0 (step pf scenes Replay p)) as Hplay.
  { refine (restart_plays Replay p sc Hpl _ _ Hsc Hok).
    - cbn [handler]. unfold handleReplay, session. simpl. rewrite Hmu. reflexivity.
    - exact Ht. }
  split; [exact Hplay |]. split.
  - remember (length scenes) as n eqn:Hn.
    destruct n as [| n]; [lia |]. cbn [Nat.iter].
    replace (sceneCount scenes - 1) with (Z.of_nat n) by (unfold sceneCount; lia).
    apply completeActive_ends.
    + apply natural_run_plays; [exact Hall | exact Hplay | lia].
    + unfold sceneCount. lia.
  - intros Hen. refine (restart_plays PlayPause p sc Hpl _ _ Hsc Hok).
    + cbn [handler]. rewrite handlePlayPause_session, Hpl, Hen, Hmu. reflexivity.
    + rewrite <- Ht. cbn [handler]. unfold handlePlayPause, initAudio, resume.
      rewrite Hpl, Hen. break_match; reflexivity.
Qed.

End ReplayFacts.

(** ** The rendered controls *)

Lemma count_layers (c : Z) (l : list PoemScene) (k : nat) :
  length (filter (fun b => b = true)
            (imap (fun idx _ => Z.of_nat (k + idx) =? c) l))
  = if (Z.of_nat k <=? c) && (c <? Z.of_nat (k + length l)) then 1%nat else 0%nat.
Proof.
  revert k. induction l as [| x l IH]; intros k.
  - cbn [imap length]. rewrite Nat.add_0_r.
    assert ((Z.of_nat k <=? c) && (c <? Z.of_nat k) = false) as ->
      by (destruct (Z.leb_spec (Z.of_nat k) c), (Z.ltb_spec c (Z.of_nat k));
          simpl; first [reflexivity | lia]).
    reflexivity.
  - cbn [imap]. rewrite filter_cons.
    assert (imap ((fun idx _ => Z.of_nat (k + idx) =? c) ∘ S) l
            = imap (fun idx (_ : PoemScene) => Z.of_nat (S k + idx) =? c) l) as ->.
    { apply imap_ext. intros i y _.
      change ((Z.of_nat (k + S i) =? c) = (Z.of_nat (S k + i) =? c)).
      replace (k + S i)%nat with (S k + i)%nat by lia. reflexivity. }
    rewrite Nat.add_0_r. cbn [length].
    replace (k + S (length l))%nat with (S k + length l)%nat by lia.
    destruct (Z.eqb_spec (Z.of_nat k) c) as [Heq | Hne].
    + destruct (decide (true = true)); [| congruence].
      cbn [length]. rewrite IH.
      assert ((Z.of_nat (S k) <=? c) && (c <? Z.of_nat (S k + length l)) = false)
        as -> by (destruct (Z.leb_spec (Z.of_nat (S k)) c),
                           (Z.ltb_spec c (Z.of_nat (S k + length l)));
                  simpl; first [reflexivity | lia]).
      assert ((Z.of_nat k <=? c) && (c <? Z.of_nat (S k + length l)) = true)
        as -> by (destruct (Z.leb_spec (Z.of_nat k) c),
                           (Z.ltb_spec c (Z.of_nat (S k + length l)));
                  simpl; first [reflexivity | lia]).
      reflexivity.
    + destruct (decide (false = true)); [congruence |].
      rewrite IH.
      assert ((Z.of_nat (S k) <=? c) && (c <? Z.of_nat (S k + length l))
              = (Z.of_nat k <=? c) && (c <? Z.of_nat (S k + length l))) as ->
        by (destruct (Z.leb_spec (Z.of_nat (S k)) c), (Z.leb_spec (Z.of_nat k) c),
                     (Z.ltb_spec c (Z.of_nat (S k + length l)));
            simpl; first [reflexivity | lia]).
      reflexivity.
Qed.

Section RenderingFacts.

Variable pf : Platform.
Variable scenes : list PoemScene.

(** Exactly one scene image is opaque while the index points at a scene,
    and none is once the index lies outside the list. *)
Theorem one_visible_layer p :
  length (filter (fun b => b = true) (visibleLayers scenes p))
  = if (0 <=? currentIndex p) && (currentIndex p <? sceneCount scenes)
    then 1%nat else 0%nat.
Proof.
  unfold visibleLayers, sceneCount.
  exact (count_layers (currentIndex p) scenes 0).
Qed.

Lemma showsLoading_in_range p :
  0 <= currentIndex p < sceneCount scenes -> showsLoading scenes p = false.
Proof.
  intros Hp. unfold showsLoading.
  destruct (sceneAt scenes (currentIndex p)); [reflexivity |].
  apply Z.eqb_neq. lia.
Qed.

(** With the index on a scene, a click on next or prev either finds the
    button disabled, and then changes nothing at all, or moves the index by
    exactly one, starts playing and clears the ended flag. *)
Theorem navigation_clicks_move_by_one p :
  0 <= currentIndex p < sceneCount scenes ->
  (if nextDisabled scenes p
   then click pf scenes NextButton p = p
   else session (click pf scenes NextButton p)
        = (currentIndex p + 1, true, isMuted p, false)) /\
  (if prevDisabled p
   then click pf scenes PrevButton p = p
   else session (click pf scenes PrevButton p)
        = (currentIndex p - 1, true, isMuted p, false)).
Proof.
  intros Hp. unfold click. rewrite (showsLoading_in_range p Hp). split.
  - unfold nextDisabled.
    destruct (Z.eqb_spec (currentIndex p) (sceneCount scenes - 1)) as [Heq | Hne];
      [reflexivity |].
    rewrite step_session. cbn [handler]. unfold handleNext.
    replace (currentIndex p <? sceneCount scenes - 1) with true
      by (symmetry; apply Z.ltb_lt; lia).
    reflexivity.
  - unfold prevDisabled.
    destruct (Z.eqb_spec (currentIndex p) 0) as [Heq | Hne]; [reflexivity |].
    rewrite step_session. cbn [handler]. unfold handlePrev.
    replace (0 <? currentIndex p) with true by (symmetry; apply Z.ltb_lt; lia).
    reflexivity.
Qed.

End RenderingFacts.

(** A player without scenes: autoplay does not start, the placeholder is
    rendered, and no sequence of clicks changes anything. *)
Theorem empty_player_stays_idle pf autoPlay (cs : list Control) :
  mount pf [] autoPlay = initial /\
  showsLoading [] initial = true /\
  foldl (fun p c => click pf [] c p) (mount pf [] autoPlay) cs = initial.
Proof.
  assert (mount pf [] autoPlay = initial) as Hm.
  { rewrite mount_unfold. simpl. rewrite andb_false_r. reflexivity. }
  split; [exact Hm |]. split; [reflexivity |].
  rewrite Hm. induction cs as [| c cs IH]; [reflexivity |].
  simpl. exact IH.
Qed.

(** ** The generation service and the application shell *)

Lemma firstPayload_spec parts d s :
  Service.firstPayload parts = Some (d, s) <->
  exists pre part post,
    parts = pre ++ part :: post /\
    Forall (fun q => Service.inlinePayload q = None) pre /\
    Service.inlinePayload part = Some (d, s).
Proof.
  induction parts as [| q rest IH]; simpl.
  - split; [discriminate |]. intros (pre & part & post & H & _). destruct pre; discriminate.
  - destruct (Service.inlinePayload q) as [r |] eqn:Hq.
    + split.
      * intros [= ->]. exists [], q, rest. repeat split; [constructor | exact Hq].
      * intros (pre & part & post & H & Hpre & Hpart). destruct pre as [| q' pre].
        -- injection H as -> ->. congruence.
        -- injection H as -> ->. inversion Hpre; congruence.
    + rewrite IH. split.
      * intros (pre & part & post & -> & Hpre & Hpart).
        exists (q :: pre), part, post. repeat split; [constructor; assumption | exact Hpart].
      * intros (pre & part & post & H & Hpre & Hpart). destruct pre as [| q' pre].
        -- injection H as -> ->. congruence.
        -- injection H as -> ->. inversion Hpre; subst. exists pre, part, post. auto.
Qed.

Lemma firstPayload_truthy parts d s :
  Service.firstPayload parts = Some (d, s) ->
  Service.data d = Some s /\ s <> EmptyString.
Proof.
  induction parts as [| q rest IH]; simpl; [discriminate |].
  destruct (Service.inlinePayload q) as [r |] eqn:Hq; [| exact IH].
  intros [= ->]. unfold Service.inlinePayload in Hq.
  destruct (Service.inlineData q) as [d' |]; [| discriminate].
  destruct (Service.data d') as [s' |] eqn:Hd; simpl in Hq; [| discriminate].
  destruct (decide (s' = EmptyString)); [discriminate |].
  injection Hq as -> ->. split; [exact Hd | assumption].
Qed.

(** What is read from an answer: the audio function returns the data of
    the first part that carries non-empty inline data, skipping every part
    before it, and the image function wraps the same data in a data URL; so a
    returned audio string is never empty.  Without such a part both throw. *)
Theorem first_inline_payload_wins (ps : list Service.Part) :
  (forall s,
     Service.generateSceneAudio (Some ps) = inr s <->
     exists pre part post d,
       ps = pre ++ part :: post /\
       Forall (fun q => Service.inlinePayload q = None) pre /\
       Service.inlineData part = Some d /\ Service.data d = Some s /\
       s <> EmptyString) /\
  (forall url,
     Service.generateSceneImage (Some ps) = inr url <->
     exists d s,
       Service.generateSceneAudio (Some ps) = inr s /\
       Service.firstPayload ps = Some (d, s) /\
       url = "data:" +:+ Service.interpolate (Service.mimeType d) +:+ ";base64," +:+ s) /\
  (Forall (fun q => Service.inlinePayload q = None) ps ->
   Service.generateSceneAudio (Some ps) = inl "Audio data not found in response"%string /\
   Service.generateSceneImage (Some ps) = inl "Image data not found in response"%string).
Proof.
  split; [| split].
  - intros s. unfold Service.generateSceneAudio. split.
    + destruct (Service.firstPayload ps) as [[d s'] |] eqn:Hf; [| discriminate].
      intros [= ->]. destruct (firstPayload_truthy ps d s Hf) as [Hd Hne].
      apply firstPayload_spec in Hf as (pre & part & post & -> & Hpre & Hpart).
      exists pre, part, post, d. repeat split; try assumption.
      unfold Service.inlinePayload in Hpart.
      destruct (Service.inlineData part) as [d' |]; [| discriminate].
      destruct (truthy (Service.data d')); [| discriminate]. congruence.
    + intros (pre & part & post & d & -> & Hpre & Hin & Hd & Hne).
      assert (Service.firstPayload (pre ++ part :: post) = Some (d, s)) as ->;
        [| reflexivity].
      apply firstPayload_spec. exists pre, part, post. repeat split; [exact Hpre |].
      unfold Service.inlinePayload. rewrite Hin, Hd. simpl.
      destruct (decide (s = EmptyString)); [contradiction | reflexivity].
  - intros url. unfold Service.generateSceneImage, Service.generateSceneAudio. split.
    + destruct (Service.firstPayload ps) as [[d s] |]; [| discriminate].
      intros [= <-]. exists d, s. repeat split.
    + intros (d & s & _ & -> & ->). reflexivity.
  - intros Hall. unfold Service.generateSceneAudio, Service.generateSceneImage.
    destruct (Service.firstPayload ps) as [[d s] |] eqn:Hf; [| split; reflexivity].
    apply firstPayload_spec in Hf as (pre & part & post & -> & _ & Hpart).
    rewrite Forall_app, Forall_cons in Hall. destruct Hall as (_ & Hq & _). congruence.
Qed.

Section GenerateFacts.

Variable units : string -> list Z.
Variable answers : App.Answers.

Lemma partlyGenerated_lookup sample k l i :
  App.partlyGenerated answers sample k l !! i =
  (fun s => if decide (i < k)%nat then App.generatedScene answers sample i s
            else App.initialScene i s) <$> l !! i.
Proof. unfold App.partlyGenerated. apply list_lookup_imap. Qed.

Lemma partlyGenerated_length sample k l :
  length (App.partlyGenerated answers sample k l) = length l.
Proof. unfold App.partlyGenerated. apply length_imap. Qed.

Lemma partlyGenerated_none sample l :
  App.partlyGenerated answers sample 0 l = imap App.initialScene l.
Proof. unfold App.partlyGenerated. apply imap_ext. intros i x _. reflexivity. Qed.

Lemma partlyGenerated_all sample l :
  App.partlyGenerated answers sample (length l) l =
  imap (App.generatedScene answers sample) l.
Proof.
  unfold App.partlyGenerated. apply imap_ext. intros i x Hi.
  apply lookup_lt_Some in Hi. case_decide; [reflexivity | lia].
Qed.

Lemma partlyGenerated_step sample k l s :
  l !! k = Some s ->
  <[k := App.generatedScene answers sample k s]> (App.partlyGenerated answers sample k l) =
  App.partlyGenerated answers sample (S k) l.
Proof.
  intros Hs. apply list_eq. intros j.
  destruct (decide (j = k)) as [-> | Hne].
  - rewrite list_lookup_insert_eq
      by (rewrite partlyGenerated_length; eapply lookup_lt_Some; exact Hs).
    rewrite partlyGenerated_lookup, Hs. simpl. case_decide; [reflexivity | lia].
  - rewrite list_lookup_insert_ne by congruence.
    rewrite !partlyGenerated_lookup. destruct (l !! j); [| reflexivity]. simpl.
    repeat case_decide; first [reflexivity | lia].
Qed.

(** One turn of the loop finishes the scene it is given and touches no
    other. *)
Lemma mediaStep_spec n dynasty totalSteps l k s c st :
  l !! k = Some s ->
  exists st',
    App.mediaStep answers n dynasty totalSteps
      (App.partlyGenerated answers (truthy (App.voiceSample st)) k l, c, st) k =
    (App.partlyGenerated answers (truthy (App.voiceSample st)) (S k) l, c + 2, st') /\
    (App.scenes st = App.partlyGenerated answers (truthy (App.voiceSample st)) k l ->
     App.scenes st' = App.partlyGenerated answers (truthy (App.voiceSample st)) (S k) l) /\
    App.appState st' = App.appState st /\
    App.analysis st' = App.analysis st /\
    App.errorMsg st' = App.errorMsg st /\
    App.voiceSample st' = App.voiceSample st /\
    App.inputText st' = App.inputText st /\
    App.completed (App.progress st') = c + 1 /\
    App.total (App.progress st') = totalSteps.
Proof.
  intros Hs. pose proof (partlyGenerated_step (truthy (App.voiceSample st)) k l s Hs) as Hstep.
  assert (Hk : App.partlyGenerated answers (truthy (App.voiceSample st)) k l !! k =
               Some (App.initialScene k s)).
  { rewrite partlyGenerated_lookup, Hs. simpl. case_decide; [lia | reflexivity]. }
  assert (Hlen : (k < length (App.partlyGenerated answers (truthy (App.voiceSample st)) k l))%nat).
  { eapply lookup_lt_Some. exact Hk. }
  unfold App.generatedScene in Hstep. unfold App.mediaStep. rewrite Hk.
  change (visualPrompt (App.initialScene k s)) with (Analysis.visualDescription s) in *.
  destruct (App.awaitImage answers k (Analysis.visualDescription s)) as [e | v] eqn:Himg.
  - cbn [App.voiceSample App.consoleError App.setProgress]. rewrite Hk.
    change (originalText (App.initialScene k s)) with (Analysis.text s) in *.
    destruct (App.awaitAudio answers k (Analysis.text s) (truthy (App.voiceSample st)))
      as [e' | v'] eqn:Haud.
    + rewrite list_insert_id in Hstep by exact Hk. rewrite <- Hstep.
      eexists. split; [f_equal; f_equal; lia |]. simpl.
      repeat split; try reflexivity. intros H; exact H.
    + rewrite Hstep. eexists. split; [f_equal; f_equal; lia |]. simpl.
      repeat split; reflexivity.
  - cbn [App.voiceSample App.setScenes App.setProgress].
    rewrite list_lookup_insert_eq by exact Hlen.
    change (originalText (App.withImage v (App.initialScene k s)))
      with (Analysis.text s) in *.
    destruct (App.awaitAudio answers k (Analysis.text s) (truthy (App.voiceSample st)))
      as [e' | v'] eqn:Haud.
    + rewrite Hstep. eexists. split; [f_equal; f_equal; lia |]. simpl.
      repeat split; reflexivity.
    + rewrite list_insert_insert_eq, Hstep.
      eexists. split; [f_equal; f_equal; lia |]. simpl.
      repeat split; reflexivity.
Qed.

(** The loop over the first [k] scenes. *)
Lemma mediaLoop_spec n dynasty totalSteps l st k :
  (k <= length l)%nat ->
  App.scenes st = imap App.initialScene l ->
  exists st',
    foldl (App.mediaStep answers n dynasty totalSteps)
          (imap App.initialScene l, 0, st) (seq 0 k) =
    (App.partlyGenerated answers (truthy (App.voiceSample st)) k l,
     2 * Z.of_nat k, st') /\
    App.scenes st' = App.partlyGenerated answers (truthy (App.voiceSample st)) k l /\
    App.appState st' = App.appState st /\
    App.analysis st' = App.analysis st /\
    App.errorMsg st' = App.errorMsg st /\
    App.voiceSample st' = App.voiceSample st /\
    App.inputText st' = App.inputText st /\
    ((0 < k)%nat ->
     App.completed (App.progress st') = 2 * Z.of_nat k - 1 /\
     App.total (App.progress st') = totalSteps).
Proof.
  intros Hk Hsc. induction k as [| k IH].
  - exists st. rewrite partlyGenerated_none. simpl.
    repeat split; try reflexivity; try assumption; lia.
  - destruct IH as (st1 & Hfold & Hs1 & Ha1 & Han1 & He1 & Hv1 & Hi1 & _); [lia |].
    destruct (lookup_lt_is_Some_2 l k) as [s Hs]; [lia |].
    destruct (mediaStep_spec n dynasty totalSteps l k s (2 * Z.of_nat k) st1 Hs)
      as (st2 & Hstep & Hs2 & Ha2 & Han2 & He2 & Hv2 & Hi2 & Hc2 & Ht2).
    rewrite Hv1 in Hstep, Hs2.
    exists st2. rewrite seq_S, foldl_app, Hfold. cbn [foldl Nat.add]. rewrite Hstep.
    split; [f_equal; f_equal; lia |].
    split; [apply Hs2; exact Hs1 |].
    repeat split; try congruence. lia.
Qed.

(** The state [handleGenerate] leaves when the analysis succeeds. *)
Lemma handleGenerate_ready st0 a :
  JsString.trim (units (App.inputText st0)) <> [] ->
  App.analyzePoem answers (App.inputText st0) = inr a ->
  let st := App.handleGenerate units answers st0 in
  App.appState st = App.READY /\
  App.errorMsg st = None /\
  App.analysis st = Some a /\
  App.scenes st =
    imap (App.generatedScene answers (truthy (App.voiceSample st0))) (Analysis.scenes a) /\
  ((0 < length (Analysis.scenes a))%nat ->
   App.completed (App.progress st) = App.total (App.progress st) - 1).
Proof.
  intros Hin Ha. unfold App.handleGenerate.
  destruct (JsString.trim (units (App.inputText st0))); [congruence |].
  rewrite Ha. rewrite length_imap.
  match goal with
  | |- context [foldl _ (_, _, ?s) _] => set (st1 := s)
  end.
  destruct (mediaLoop_spec (length (Analysis.scenes a)) (Analysis.dynasty a)
              (Z.of_nat (length (Analysis.scenes a)) * 2)
              (Analysis.scenes a) st1 (length (Analysis.scenes a)))
    as (st2 & Hfold & Hs & Hap & Han & He & Hv & Hi & Hp); [lia | reflexivity |].
  rewrite Hfold. cbn zeta. rewrite partlyGenerated_all in Hs.
  simpl. repeat split; try assumption.
  intros Hpos. destruct (Hp Hpos) as [-> ->]. lia.
Qed.

Lemma generatedScene_fields sample i s :
  let sc := App.generatedScene answers sample i s in
  id sc = "scene-" +:+ pretty i /\
  originalText sc = Analysis.text s /\
  visualPrompt sc = Analysis.visualDescription s /\
  sfxDescription sc = Analysis.sfxDescription s /\
  sfxCategory sc = Analysis.sfxCategory s /\
  imageBase64 sc =
    match App.awaitImage answers i (Analysis.visualDescription s) with
    | inr v => Some v
    | inl _ => None
    end /\
  audioBase64 sc =
    match App.awaitAudio answers i (Analysis.text s) sample with
    | inr v => Some v
    | inl _ => None
    end /\
  sfxBase64 sc = None /\
  duration sc = None.
Proof.
  unfold App.generatedScene.
  change (visualPrompt (App.initialScene i s)) with (Analysis.visualDescription s).
  destruct (App.awaitImage answers i (Analysis.visualDescription s)) as [e | v];
    [change (originalText (App.initialScene i s)) with (Analysis.text s)
    | change (originalText (App.withImage v (App.initialScene i s))) with (Analysis.text s)];
    destruct (App.awaitAudio answers i (Analysis.text s) sample) as [e' | v'];
    simpl; repeat split; reflexivity.
Qed.

Lemma awaitAudio_nonempty i text sample v :
  App.awaitAudio answers i text sample = inr v -> v <> EmptyString.
Proof.
  unfold App.awaitAudio. destruct (App.audioAnswer answers i text sample) as [e | parts];
    [discriminate |].
  unfold Service.generateSceneAudio. destruct parts as [ps |]; [| discriminate].
  destruct (Service.firstPayload ps) as [[d s] |] eqn:Hf; [| discriminate].
  intros [= <-]. apply (firstPayload_truthy ps d s Hf).
Qed.

Lemma awaitImage_data_url i prompt v :
  App.awaitImage answers i prompt = inr v -> exists rest, v = "data:" +:+ rest.
Proof.
  unfold App.awaitImage. destruct (App.imageAnswer answers i prompt) as [e | parts];
    [discriminate |].
  unfold Service.generateSceneImage. destruct parts as [ps |]; [| discriminate].
  destruct (Service.firstPayload ps) as [[d s] |]; [| discriminate].
  intros [= <-]. eexists. reflexivity.
Qed.

End GenerateFacts.

(** Whatever the image and audio requests answer, a generation whose
    analysis succeeds ends in READY without an error message, with one scene
    per analysed scene, in order: scene [i] is named [scene-i], carries the
    text, prompt and sound fields of the analysis, the image and the audio of
    its own two requests when they succeeded and none otherwise.  A failed
    request costs its own scene its image or audio and nothing else.  The last
    progress shown is one step short of the total. *)
Theorem generation_fills_each_scene_independently
    (units : string -> list Z) (answers : App.Answers) (st0 : App.State)
    (a : Analysis.PoemAnalysis) :
  JsString.trim (units (App.inputText st0)) <> [] ->
  App.analyzePoem answers (App.inputText st0) = inr a ->
  let st := App.handleGenerate units answers st0 in
  App.appState st = App.READY /\
  App.errorMsg st = None /\
  App.analysis st = Some a /\
  length (App.scenes st) = length (Analysis.scenes a) /\
  (forall i s, Analysis.scenes a !! i = Some s ->
     exists sc,
       App.scenes st !! i = Some sc /\
       id sc = "scene-" +:+ pretty i /\
       originalText sc = Analysis.text s /\
       visualPrompt sc = Analysis.visualDescription s /\
       sfxDescription sc = Analysis.sfxDescription s /\
       sfxCategory sc = Analysis.sfxCategory s /\
       imageBase64 sc =
         match App.awaitImage answers i (Analysis.visualDescription s) with
         | inr v => Some v
         | inl _ => None
         end /\
       audioBase64 sc =
         match App.awaitAudio answers i (Analysis.text s)
                 (truthy (App.voiceSample st0)) with
         | inr v => Some v
         | inl _ => None
         end /\
       sfxBase64 sc = None /\
       duration sc = None) /\
  (Analysis.scenes a <> [] ->
   App.completed (App.progress st) = App.total (App.progress st) - 1).
Proof.
  intros Hin Ha st.
  destruct (handleGenerate_ready units answers st0 a Hin Ha)
    as (Hst & Herr & Han & Hsc & Hpr).
  fold st in Hst, Herr, Han, Hsc, Hpr.
  split; [exact Hst |]. split; [exact Herr |]. split; [exact Han |].
  split; [rewrite Hsc; apply length_imap |]. split.
  - intros i s Hs. eexists. split.
    + rewrite Hsc, list_lookup_imap, Hs. reflexivity.
    + apply generatedScene_fields.
  - intros Hne. apply Hpr. destruct (Analysis.scenes a); [congruence | simpl; lia].
Qed.

(** The generated scenes have pairwise distinct ids (the keys of the
    player's image layers and thumbnails). *)
Theorem generated_scene_ids_are_distinct
    (units : string -> list Z) (answers : App.Answers) (st0 : App.State)
    (a : Analysis.PoemAnalysis) :
  JsString.trim (units (App.inputText st0)) <> [] ->
  App.analyzePoem answers (App.inputText st0) = inr a ->
  NoDup (id <$> App.scenes (App.handleGenerate units answers st0)).
Proof.
  intros Hin Ha.
  destruct (handleGenerate_ready units answers st0 a Hin Ha) as (_ & _ & _ & Hsc & _).
  rewrite Hsc. apply NoDup_alt. intros i j x Hi Hj.
  rewrite list_lookup_fmap, list_lookup_imap in Hi, Hj.
  destruct (Analysis.scenes a !! i) as [si |]; [| discriminate].
  destruct (Analysis.scenes a !! j) as [sj |]; [| discriminate].
  simpl in Hi, Hj.
  destruct (generatedScene_fields answers (truthy (App.voiceSample st0)) i si) as [Hidi _].
  destruct (generatedScene_fields answers (truthy (App.voiceSample st0)) j sj) as [Hidj _].
  rewrite Hidi in Hi. rewrite Hidj in Hj.
  injection Hi as <-. injection Hj as Heq.
  change (pretty j = pretty i) in Heq. symmetry. exact (pretty_nat_inj _ _ Heq).
Qed.

(** No generated scene carries an empty audio string, so the player's
    test [scene.audioBase64] holds exactly for the scenes whose audio request
    succeeded; and every generated image is a data URL. *)
Theorem generated_media_is_well_formed
    (units : string -> list Z) (answers : App.Answers) (st0 : App.State)
    (a : Analysis.PoemAnalysis) :
  JsString.trim (units (App.inputText st0)) <> [] ->
  App.analyzePoem answers (App.inputText st0) = inr a ->
  Forall (fun sc =>
            truthy (audioBase64 sc) = audioBase64 sc /\
            forall url, imageBase64 sc = Some url -> exists rest, url = "data:" +:+ rest)
         (App.scenes (App.handleGenerate units answers st0)).
Proof.
  intros Hin Ha.
  destruct (handleGenerate_ready units answers st0 a Hin Ha) as (_ & _ & _ & Hsc & _).
  rewrite Hsc. apply Forall_lookup. intros i sc Hi.
  rewrite list_lookup_imap in Hi.
  destruct (Analysis.scenes a !! i) as [s |]; [| discriminate].
  injection Hi as <-.
  destruct (generatedScene_fields answers (truthy (App.voiceSample st0)) i s)
    as (_ & _ & _ & _ & _ & Himg & Haud & _).
  cbv zeta in Himg, Haud. split.
  - rewrite Haud.
    destruct (App.awaitAudio answers i (Analysis.text s) (truthy (App.voiceSample st0)))
      as [e | v] eqn:Hv; [reflexivity |].
    apply awaitAudio_nonempty in Hv. simpl.
    destruct (decide (v = EmptyString)); [contradiction | reflexivity].
  - intros url. rewrite Himg.
    destruct (App.awaitImage answers i (Analysis.visualDescription s)) as [e | v] eqn:Hv;
      [discriminate |].
    intros [= <-]. eapply awaitImage_data_url. exact Hv.
Qed.

(** When the analysis is rejected, a generation on non-blank input ends
    in ERROR: the scenes and the analysis of an earlier generation are
    cleared, the error is logged, and the message shown is the error's own,
    or the default one when that is empty: never an empty message.  The text
    and the voice sample are kept. *)
Theorem rejected_analysis_is_reported
    (units : string -> list Z) (answers : App.Answers) (st0 : App.State)
    (m : string) :
  JsString.trim (units (App.inputText st0)) <> [] ->
  App.analyzePoem answers (App.inputText st0) = inl m ->
  let st := App.handleGenerate units answers st0 in
  App.appState st = App.ERROR /\
  App.scenes st = [] /\
  App.analysis st = None /\
  App.console st = App.console st0 ++ [m] /\
  App.errorMsg st = Some (if decide (m = EmptyString) then App.DEFAULT_ERROR else m) /\
  App.errorMsg st <> Some EmptyString /\
  App.inputText st = App.inputText st0 /\
  App.voiceSample st = App.voiceSample st0.
Proof.
  intros Hin Ha st.
  assert (Hst : st = App.setErrorMsg
                  (Some (default App.DEFAULT_ERROR (truthy (Some m))))
                  (App.setAppState App.ERROR
                     (App.consoleError m
                        (App.setProgress
                           (App.mkProgress "Analyzing poem structure and mood..." 0 100)
                           (App.setAnalysis None (App.setScenes []
                              (App.setErrorMsg None
                                 (App.setAppState App.ANALYZING st0)))))))).
  { subst st. unfold App.handleGenerate.
    destruct (JsString.trim (units (App.inputText st0))); [congruence |].
    rewrite Ha. reflexivity. }
  rewrite Hst. simpl.
  split; [reflexivity |]. split; [reflexivity |]. split; [reflexivity |].
  split; [reflexivity |].
  split; [destruct (decide (m = EmptyString)); reflexivity |].
  split; [| split; reflexivity].
  destruct (decide (m = EmptyString)); simpl; [discriminate | congruence].
Qed.

(** * Concrete runs *)

(** The decoder on five bytes: two samples, the fifth byte unread. *)
Lemma decode_pcm_samples_example :
  length (int16_elements [255; 127; 0; 128; 1]) = 2%nat /\
  int16_elements [255; 127; 0; 128; 1] = [32767; -32768] /\
  exists audioBuffer,
    decodePcm [255; 127; 0; 128; 1] = ok audioBuffer /\
    channelData audioBuffer = [(inject_Z 32767 / 32768)%Q; (inject_Z (-32768) / 32768)%Q].
Proof.
  destruct (decode_pcm_samples [255; 127; 0; 128; 1]) as (Hlen & _ & _ & Hbuf & Hok).
  split; [exact Hlen |]. split; [reflexivity |].
  destruct (Hok ltac:(simpl; lia)) as [audioBuffer Hdec].
  exists audioBuffer. split; [exact Hdec |].
  destruct (Hbuf audioBuffer Hdec) as [Hch _]. exact Hch.
Defined.

(** A payload of whitespace decodes to zero bytes, a starred one is not
    base64: both are logged and leave a playing session as it was. *)
Lemma decode_error_example :
  let p := mkPlayer 0 true false false (Some running) None [] [] [] in
  decodeVoice "  " = inl NotSupportedError /\
  decodeVoice "A*AA" = inl InvalidCharacterError /\
  session (playVoice 0 "  " p) = session p /\
  timers (playVoice 0 "  " p) = [] /\
  sources (playVoice 0 "  " p) = [] /\
  console (playVoice 0 "  " p) = ["Error creating voice source"%string].
Proof.
  intros p.
  destruct decode_error_is_not_fatal as (_ & _ & Hcatch).
  destruct (Hcatch 0 "  "%string NotSupportedError p eq_refl)
    as (Hs & Ht & _ & Hl & _ & Hlog).
  split; [reflexivity |]. split; [reflexivity |].
  split; [exact Hs |]. split; [exact Ht |].
  split; [apply nil_length_inv; exact Hl |].
  apply Hlog. eexists. reflexivity.
Defined.

(** Two narrated scenes: the user skips to scene 1 while scene 0 is still
    being spoken; the late completion of source 0 changes nothing. *)
Lemma stale_completion_example :
  voiceSourceRef (mount syncPlatform twoScenes true) = Some 0%nat /\
  voiceSourceRef (step syncPlatform twoScenes Next (mount syncPlatform twoScenes true))
    = Some 1%nat /\
  session (run syncPlatform twoScenes [Next; SourceEnded 0%nat]
             (mount syncPlatform twoScenes true))
    = (1, true, false, false) /\
  timers (run syncPlatform twoScenes [Next; SourceEnded 0%nat]
            (mount syncPlatform twoScenes true)) = [].
Proof.
  destruct (stale_completion_is_discarded syncPlatform twoScenes true
              [] Next 0%nat []) as (Hs & Ht & _).
  - reflexivity.
  - discriminate.
  - split; [reflexivity |]. split; [reflexivity |].
    split; [exact Hs | exact Ht].
Defined.

(** Three narrated scenes played through: ended by the third completion. *)
Lemma natural_playthrough_example :
  forallb playable threeScenes = true /\
  session (Nat.iter 2 (completeActive syncPlatform threeScenes)
             (mount syncPlatform threeScenes true)) = (2, true, false, false) /\
  session (Nat.iter 3 (completeActive syncPlatform threeScenes)
             (mount syncPlatform threeScenes true)) = (2, false, false, true).
Proof.
  assert (playingScene 0 (mount syncPlatform threeScenes true)) as Hp0.
  { split; [reflexivity |]. split; [eexists; reflexivity |]. split; [reflexivity |].
    eexists _, _. repeat split; reflexivity. }
  split; [reflexivity |]. split.
  - apply (natural_playthrough_reaches_ended syncPlatform threeScenes _ 2);
      [reflexivity | simpl; lia | exact Hp0 | simpl; lia].
  - apply (natural_playthrough_reaches_ended syncPlatform threeScenes _ 3);
      [reflexivity | simpl; lia | exact Hp0 | simpl; lia].
Defined.

(** C2 on the code: narration for scenes 0 and 2, none for scene 1.
    Scene 0 completes and the pause elapses; the session is then at scene 1
    with no timer pending and no live handler, and no sequence of browser
    events ever takes it to scene 2. *)
Lemma silent_scene_stalls :
  session (mount syncPlatform gapScenes true) = (0, true, false, false) /\
  session (run syncPlatform gapScenes [SourceEnded 0%nat; TimerFired]
             (mount syncPlatform gapScenes true)) = (1, true, false, false) /\
  timers (run syncPlatform gapScenes [SourceEnded 0%nat; TimerFired]
            (mount syncPlatform gapScenes true)) = [] /\
  (forall es, forallb autonomous es = true ->
     session (run syncPlatform gapScenes es
                (run syncPlatform gapScenes [SourceEnded 0%nat; TimerFired]
                   (mount syncPlatform gapScenes true)))
     = (1, true, false, false)).
Proof.
  split; [reflexivity |]. split; [reflexivity |]. split; [reflexivity |].
  intros es Hes.
  apply (quiescent_run syncPlatform gapScenes es); [| exact Hes].
  split; [reflexivity |].
  intros i s Hs.
  remember (sources (run syncPlatform gapScenes [SourceEnded 0%nat; TimerFired]
                       (mount syncPlatform gapScenes true))) as l eqn:Hl.
  vm_compute in Hl. subst l.
  destruct i as [| i]; simpl in Hs; [| discriminate].
  injection Hs as <-. right. reflexivity.
Qed.

(** The amended C2 at the silent scene of the same list. *)
Lemma silent_scene_example :
  let p := mkPlayer 1 true false false (Some running) None [] [] [] in
  (forall sc, sceneAt gapScenes (currentIndex p) = Some sc -> playable sc = false) /\
  timers (voiceEffect syncPlatform gapScenes p) = [] /\
  length (sources (voiceEffect syncPlatform gapScenes p)) = 0%nat /\
  session (run syncPlatform gapScenes [TimerFired; SourceEnded 0%nat]
             (voiceEffect syncPlatform gapScenes p)) = (1, true, false, false).
Proof.
  intros p.
  assert (forall sc, sceneAt gapScenes (currentIndex p) = Some sc -> playable sc = false)
    as Hsilent by (intros sc [= <-]; reflexivity).
  split; [exact Hsilent |].
  destruct (silent_scene_schedules_nothing syncPlatform gapScenes p Hsilent)
    as (_ & Ht & Hl & _ & Hstall).
  split; [exact Ht |]. split; [exact Hl |].
  apply Hstall; [| reflexivity].
  split; [reflexivity |]. intros i s Hs. destruct i; discriminate.
Defined.

(** C3 on the code: scene 0 of three completes, the pause timer is pending,
    the user presses next, and the timer still fires: the index goes from 0
    to 2 and scene 1 is stopped after it was started.  With two scenes the
    same run leaves the index at 2, past the last scene. *)
Lemma pause_gap_navigation_advances_twice :
  timers (run syncPlatform threeScenes [SourceEnded 0%nat]
            (mount syncPlatform threeScenes true)) = [INTER_SCENE_PAUSE] /\
  session (run syncPlatform threeScenes [SourceEnded 0%nat; Next]
             (mount syncPlatform threeScenes true)) = (1, true, false, false) /\
  timers (run syncPlatform threeScenes [SourceEnded 0%nat; Next]
            (mount syncPlatform threeScenes true)) = [INTER_SCENE_PAUSE] /\
  session (run syncPlatform threeScenes [SourceEnded 0%nat; Next; TimerFired]
             (mount syncPlatform threeScenes true)) = (2, true, false, false) /\
  currentIndex (run syncPlatform twoScenes [SourceEnded 0%nat; Next; TimerFired]
                  (mount syncPlatform twoScenes true)) = sceneCount twoScenes.
Proof. repeat split; vm_compute; reflexivity. Qed.

(** C5 on the code: pause and play again during scene 1.  The session is
    back at playing scene 1, but on a new source: the one that was paused has
    been stopped and the narration is decoded once more. *)
Lemma resume_restarts_narration :
  let playing := run syncPlatform twoScenes [Next] (mount syncPlatform twoScenes true) in
  let paused := step syncPlatform twoScenes PlayPause playing in
  let resumed := step syncPlatform twoScenes PlayPause paused in
  session playing = (1, true, false, false) /\
  voiceSourceRef playing = Some 1%nat /\
  session paused = (1, false, false, false) /\
  voiceSourceRef paused = Some 1%nat /\
  session resumed = (1, true, false, false) /\
  voiceSourceRef resumed = Some 2%nat /\
  length (sources resumed) = S (length (sources paused)) /\
  playbackState <$> sources resumed !! 1%nat = Some Stopped.
Proof. repeat split; vm_compute; reflexivity. Qed.

(** C8 on the code: mute, then unmute, while scene 0 is being spoken.  The
    unmute starts a new source and stops the one that was playing. *)
Lemma unmute_restarts_narration :
  voiceSourceRef (mount syncPlatform twoScenes true) = Some 0%nat /\
  voiceSourceRef (run syncPlatform twoScenes [ToggleMute]
                    (mount syncPlatform twoScenes true)) = Some 0%nat /\
  voiceSourceRef (run syncPlatform twoScenes [ToggleMute; ToggleMute]
                    (mount syncPlatform twoScenes true)) = Some 1%nat /\
  playbackState <$> sources (run syncPlatform twoScenes [ToggleMute; ToggleMute]
                               (mount syncPlatform twoScenes true)) !! 0%nat
    = Some Stopped.
Proof. repeat split; vm_compute; reflexivity. Qed.

(** Muting the same session keeps source 0 as it is. *)
Lemma toggle_mute_example :
  let p := mount syncPlatform twoScenes true in
  let q := step syncPlatform twoScenes ToggleMute p in
  session q = (0, true, true, false) /\
  sources q = sources p /\ voiceSourceRef q = voiceSourceRef p.
Proof.
  intros p q.
  destruct (toggle_mute_frame syncPlatform twoScenes p) as (_ & _ & _ & _ & _ & Hkeep).
  split; [reflexivity |].
  apply Hkeep. left. reflexivity.
Defined.

(** C9 on the code: the index leaves [0, sceneCount) on events the page
    delivers.  Scene 0 of two completes and sets the pause timer; the user
    clicks next, which is enabled there, and the index is 1, the last scene;
    the timer, never cleared, fires and its callback adds one without a
    guard: the index is 2, the number of scenes, no scene is current and no
    image layer is visible.  [handleNext] itself, called at the same state,
    holds the index at 1.  The same happens on a device that reports its
    state late.  With a last scene that has no narration, next does not stop
    the narration of scene 0 either: its completion sets the timer, and the
    index ends at 2 as well. *)
Lemma index_leaves_range_after_pause_timer :
  let p0 := mount syncPlatform twoScenes true in
  let p1 := step syncPlatform twoScenes (SourceEnded 0%nat) p0 in
  let p2 := click syncPlatform twoScenes NextButton p1 in
  let p3 := step syncPlatform twoScenes TimerFired p2 in
  let q1 := click syncPlatform silentLastScenes NextButton
              (mount syncPlatform silentLastScenes true) in
  let q3 := run syncPlatform silentLastScenes [SourceEnded 0%nat; TimerFired] q1 in
  (session p0 = (0, true, false, false) /\
   voiceSourceRef p0 = Some 0%nat /\ onendedAt 0 p0 = Some 0 /\
   playbackState <$> sources p0 !! 0%nat = Some Scheduled) /\
  (session p1 = (0, true, false, false) /\ timers p1 = [INTER_SCENE_PAUSE] /\
   showsLoading twoScenes p1 = false /\ nextDisabled twoScenes p1 = false) /\
  (p2 = step syncPlatform twoScenes Next p1 /\
   session p2 = (1, true, false, false) /\ timers p2 = [INTER_SCENE_PAUSE]) /\
  (session p3 = (2, true, false, false) /\
   currentIndex p3 = sceneCount twoScenes /\
   sceneAt twoScenes (currentIndex p3) = None /\
   visibleLayers twoScenes p3 = [false; false]) /\
  currentIndex (step syncPlatform twoScenes Next p2) = 1 /\
  currentIndex (run lazyPlatform twoScenes [SourceEnded 0%nat; Next; TimerFired]
                  (mount lazyPlatform twoScenes true)) = sceneCount twoScenes /\
  (nextDisabled silentLastScenes (mount syncPlatform silentLastScenes true) = false /\
   session q1 = (1, true, false, false) /\
   voiceSourceRef q1 = Some 0%nat /\ onendedAt 0 q1 = Some 0 /\
   playbackState <$> sources q1 !! 0%nat = Some Scheduled) /\
  currentIndex q3 = sceneCount silentLastScenes.
Proof. repeat split; vm_compute; reflexivity. Qed.

(** The handlers at the mounted two-scene session. *)
Lemma index_in_range_example :
  let p := mount syncPlatform twoScenes true in
  0 <= currentIndex p < sceneCount twoScenes /\
  0 <= currentIndex (step syncPlatform twoScenes Next p) < sceneCount twoScenes /\
  step syncPlatform twoScenes (SelectScene 2) p = p /\
  currentIndex (step syncPlatform twoScenes Prev p) = 0.
Proof.
  intros p.
  assert (0 <= currentIndex p < sceneCount twoScenes) as Hp
    by (vm_compute; split; [discriminate | reflexivity]).
  destruct (user_operations_keep_index_in_range syncPlatform twoScenes p Hp)
    as (Hall & _ & Hprev & Hsel).
  split; [exact Hp |].
  split; [apply Hall; reflexivity |].
  split; [apply Hsel; simpl; lia |].
  apply Hprev. reflexivity.
Defined.

(** C10 in the ended state of the one-scene session. *)
Lemma boundary_navigation_example :
  let ended := run syncPlatform soloScenes [SourceEnded 0%nat]
                 (mount syncPlatform soloScenes true) in
  session ended = (0, false, false, true) /\
  step syncPlatform soloScenes Next ended = setHasEnded false ended /\
  step syncPlatform soloScenes Prev ended = setHasEnded false ended /\
  session (step syncPlatform soloScenes Next ended) = (0, false, false, false).
Proof.
  intros ended.
  destruct (boundary_navigation_clears_ended syncPlatform soloScenes ended) as [Hn Hv].
  split; [reflexivity |].
  split; [apply Hn; reflexivity |].
  split; [apply Hv; reflexivity |].
  rewrite Hn by reflexivity. reflexivity.
Defined.

(** The bytes FF 7F are the sample 32767, the bytes 00 80 the sample -32768. *)
Lemma int16_le_example :
  int16_le 255 127 = 32767 /\ int16_le 0 128 = -32768 /\
  -32768 <= int16_le 0 128 < 32768 /\ (int16_le 0 128) mod 65536 = 0 + 256 * 128.
Proof.
  split; [reflexivity |]. split; [reflexivity |].
  apply (int16_le_signed 0 128); lia.
Defined.

(** The pending timer of the three-scene session outlives [Next]. *)
Lemma pending_timer_example :
  let p := run syncPlatform threeScenes [SourceEnded 0%nat]
             (mount syncPlatform threeScenes true) in
  timers p = [INTER_SCENE_PAUSE] /\
  timers (step syncPlatform threeScenes Next p) = [INTER_SCENE_PAUSE] /\
  currentIndex (run syncPlatform threeScenes [Next; TimerFired] p) = currentIndex p + 2.
Proof.
  intros p. split; [reflexivity |].
  apply (pending_timer_survives_next syncPlatform threeScenes p INTER_SCENE_PAUSE []).
  - reflexivity.
  - reflexivity.
Defined.

(** Play after pause on a device that reports its state late: the paused
    source is replaced as well. *)
Lemma resume_replays_example :
  let paused := run lazyPlatform twoScenes [Next; PlayPause]
                  (mount lazyPlatform twoScenes true) in
  session paused = (1, false, false, false) /\
  voiceSourceRef paused = Some 1%nat /\
  session (step lazyPlatform twoScenes PlayPause paused) = (1, true, false, false) /\
  exists new, voiceSourceRef (step lazyPlatform twoScenes PlayPause paused) = Some new /\
              (1 < new)%nat /\
              (length (sources paused)
               < length (sources (step lazyPlatform twoScenes PlayPause paused)))%nat.
Proof.
  intros paused. split; [reflexivity |]. split; [reflexivity |].
  apply (resume_always_replays lazyPlatform twoScenes paused 1%nat
           (narrated "scene-1" "AQID")); try reflexivity.
  intros i Hi. vm_compute in Hi. injection Hi as <-. vm_compute. lia.
Defined.

(** The narration of the example scenes decodes to two samples, 0 and
    32767/32768. *)
Lemma decoded_samples_example :
  exists audioBuffer,
    decodeVoice "AAD/fw==" = ok audioBuffer /\
    length (channelData audioBuffer) = 2%nat /\
    numberOfChannels audioBuffer = 1 /\
    sampleRate audioBuffer = 24000 /\
    (1 <= length (channelData audioBuffer))%nat /\
    Forall (fun x => (-1 <= x)%Q /\ (x < 1)%Q) (channelData audioBuffer).
Proof.
  eexists. split; [vm_compute; reflexivity |]. split; [reflexivity |].
  apply (decoded_samples_in_unit_range "AAD/fw=="). vm_compute. reflexivity.
Defined.

(** The one-scene session ends with the completion of its only source. *)
Lemma session_ends_example :
  let p := mount syncPlatform soloScenes true in
  hasEnded p = false /\
  hasEnded (step syncPlatform soloScenes (SourceEnded 0%nat) p) = true /\
  exists i s,
    SourceEnded 0%nat = SourceEnded i /\ voiceSourceRef p = Some i /\
    sources p !! i = Some s /\ playbackState s <> Finished /\
    onended s = Some (sceneCount soloScenes - 1).
Proof.
  intros p. split; [reflexivity |]. split; [reflexivity |].
  apply (session_ends_only_at_last_scene syncPlatform soloScenes true []
           (SourceEnded 0%nat)); reflexivity.
Defined.

(** Replay and play on the ended three-scene session. *)
Lemma replay_example :
  let ended := run syncPlatform threeScenes
                 [SourceEnded 0%nat; TimerFired; SourceEnded 1%nat; TimerFired;
                  SourceEnded 2%nat]
                 (mount syncPlatform threeScenes true) in
  session ended = (2, false, false, true) /\
  session (step syncPlatform threeScenes Replay ended) = (0, true, false, false) /\
  playingScene 0 (step syncPlatform threeScenes Replay ended) /\
  session (Nat.iter 3 (completeActive syncPlatform threeScenes)
             (step syncPlatform threeScenes Replay ended))
  = (2, false, false, true) /\
  playingScene 0 (step syncPlatform threeScenes PlayPause ended).
Proof.
  intros ended. split; [reflexivity |].
  destruct (replay_plays_from_start syncPlatform threeScenes ended) as [Hs Hrest].
  split; [exact Hs |].
  destruct Hrest as (Hplay & Hrun & Hpp);
    [reflexivity | reflexivity | reflexivity | reflexivity | simpl; lia |].
  split; [exact Hplay |]. split; [exact Hrun |]. apply Hpp. reflexivity.
Defined.

(** At scene 0 of two, next moves to scene 1 and the disabled prev does
    nothing. *)
Lemma navigation_clicks_example :
  let p := mount syncPlatform twoScenes true in
  session (click syncPlatform twoScenes NextButton p) = (1, true, false, false) /\
  click syncPlatform twoScenes PrevButton p = p.
Proof.
  intros p. apply (navigation_clicks_move_by_one syncPlatform twoScenes p).
  change (0 <= 0 < 2). lia.
Defined.

(** The example generation: ready with both scenes, the first with its
    image and no audio, the second with its audio and no image. *)
Lemma generation_example :
  let st := App.handleGenerate asciiUnits demoAnswers demoState in
  App.scenes st =
    [mkScene "scene-0" "Moonlight before my bed," "ink wash, moonlit room" "calm"
             PEACEFUL None (Some "data:image/png;base64,iVBORw0KGgo="%string) None None;
     mkScene "scene-1" "frost upon the ground." "ink wash, frosted courtyard"
             "cold wind" WIND (Some "AAD/fw=="%string) None None None] /\
  App.console st = ["Failed to generate audio for scene 0"%string;
                    "Failed to generate image for scene 1"%string] /\
  App.progress st = App.mkProgress "Reciting scene 2/2..." 3 4 /\
  App.appState st = App.READY /\
  App.errorMsg st = None /\
  App.analysis st = Some demoAnalysis /\
  length (App.scenes st) = 2%nat.
Proof.
  intros st. split; [vm_compute; reflexivity |]. split; [vm_compute; reflexivity |].
  split; [vm_compute; reflexivity |].
  destruct (generation_fills_each_scene_independently asciiUnits demoAnswers demoState
              demoAnalysis) as (Hst & Herr & Han & Hlen & _).
  - intros H. vm_compute in H. discriminate H.
  - reflexivity.
  - fold st in Hst, Herr, Han, Hlen. repeat split; assumption.
Defined.

(** The ids of the example generation. *)
Lemma generated_ids_example :
  id <$> App.scenes (App.handleGenerate asciiUnits demoAnswers demoState)
  = ["scene-0"%string; "scene-1"%string] /\
  NoDup (id <$> App.scenes (App.handleGenerate asciiUnits demoAnswers demoState)).
Proof.
  split; [vm_compute; reflexivity |].
  apply (generated_scene_ids_are_distinct asciiUnits demoAnswers demoState demoAnalysis).
  - intros H. vm_compute in H. discriminate H.
  - reflexivity.
Defined.

(** In the example the empty audio part is skipped, and the image is a
    data URL. *)
Lemma generated_media_example :
  audioBase64 <$> App.scenes (App.handleGenerate asciiUnits demoAnswers demoState)
  = [None; Some "AAD/fw=="%string] /\
  Forall (fun sc =>
            truthy (audioBase64 sc) = audioBase64 sc /\
            forall url, imageBase64 sc = Some url -> exists rest, url = "data:" +:+ rest)
         (App.scenes (App.handleGenerate asciiUnits demoAnswers demoState)).
Proof.
  split; [vm_compute; reflexivity |].
  apply (generated_media_is_well_formed asciiUnits demoAnswers demoState demoAnalysis).
  - intros H. vm_compute in H. discriminate H.
  - reflexivity.
Defined.

(** A second generation after the example one, its analysis rejected with
    an empty message: the two scenes are gone and the default message is
    shown. *)
Lemma generation_failure_example :
  let ready := App.handleGenerate asciiUnits demoAnswers demoState in
  let st := App.handleGenerate asciiUnits refusingAnswers ready in
  length (App.scenes ready) = 2%nat /\
  App.analysis ready = Some demoAnalysis /\
  App.appState st = App.ERROR /\
  App.scenes st = [] /\
  App.analysis st = None /\
  App.console st = App.console ready ++ [""%string] /\
  App.errorMsg st = Some "Something went wrong during generation."%string /\
  App.errorMsg st <> Some EmptyString /\
  App.inputText st = App.inputText ready /\
  App.voiceSample st = App.voiceSample ready.
Proof.
  intros ready st. split; [vm_compute; reflexivity |]. split; [vm_compute; reflexivity |].
  apply (rejected_analysis_is_reported asciiUnits refusingAnswers ready ""%string).
  - intros H. vm_compute in H. discriminate H.
  - reflexivity.
Defined.
